(** * pyreqsearch: static import discovery and transitive resolution

    A shallow embedding of [pyreqsearch.py]: the [ImportsFinder] visitor that
    sorts the import statements of a syntax tree into buckets, and the
    breadth-first loop of [requirements_info] that turns the direct imports
    of every reached file into a dependency mapping. *)

From Stdlib Require Import Ascii.
From stdpp Require Import gmap strings list fin_maps.

Set Warnings "-register-all,-clear-no-such-hyp".

(** ** Exceptions and the error monad

    Python exceptions that can cross the functions modelled here. *)

Inductive exn : Type :=
| SyntaxError (filename : string)   (* ast.parse; carries its [filename] argument *)
| OSError (filename : string)       (* open(); carries the path it was given *)
| TypeError                         (* "." + None *)
| IndexError                        (* pop from empty list *)
| ValueError                        (* star-unpacking of an empty list *)
| ImportError (msg : string).       (* anything else find_spec raises *)

Inductive result (A : Type) : Type :=
| Ok (a : A)
| Raise (e : exn).
Arguments Ok {A} a.
Arguments Raise {A} e.

Definition bind {A B : Type} (c : result A) (k : A → result B) : result B :=
  match c with
  | Ok a => k a
  | Raise e => Raise e
  end.

Notation "x <~ c ;; k" := (bind c (λ x, k))
  (at level 100, c at next level, right associativity).

(** ** Syntax trees

    The part of Python's [ast] node hierarchy that [ImportsFinder] tells
    apart.  Every node kind without a handler of its own ([Module], [For],
    [Try], [ClassDef], expressions, ...) is a [Node]; [fields] lists the
    child nodes in the order [ast.iter_fields] yields them. *)

Record alias : Type := Alias { alias_name : string; alias_asname : option string }.

Inductive ast : Type :=
| Import (names : list alias)
| ImportFrom (module : option string) (names : list alias) (level : nat)
| If (fields : list ast)
| FunctionDef (fields : list ast)
| AsyncFunctionDef (fields : list ast)
| Node (fields : list ast).

(** [ImportSpec]: the pair (source, name). *)
Definition ImportSpec : Type := string * option string.

(** ** ImportsFinder *)

Record ImportsFinder : Type := Finder {
  package : option string;
  imports : list ImportSpec;
  direct_imports : list ImportSpec;
  conditional_imports : list ImportSpec;
  functions_imports : list ImportSpec;
  in_conditional : list unit;
  in_function : list unit
}.

(** [ImportsFinder.__init__] *)
Definition init (package : option string) : ImportsFinder :=
  Finder package [] [] [] [] [] [].

(** Truth value of a Python list. *)
Definition truthy {A : Type} (l : list A) : bool :=
  match l with [] => false | _ :: _ => true end.

(** The body shared by the two [for source in node.names] loops: one record
    is filed under [imports] and under the buckets the two stacks select. *)
Definition file_import (info : ImportSpec) (self : ImportsFinder) : ImportsFinder :=
  let c := truthy (in_conditional self) in
  let f := truthy (in_function self) in
  Finder (package self)
    (imports self ++ [info])
    (if negb (c || f) then direct_imports self ++ [info] else direct_imports self)
    (if c then conditional_imports self ++ [info] else conditional_imports self)
    (if f then functions_imports self ++ [info] else functions_imports self)
    (in_conditional self)
    (in_function self).

(** The character of relative levels and of dotted paths. *)
Definition dot : Ascii.ascii := "."%char.

(** ["." * n] *)
Fixpoint dots (n : nat) : string :=
  match n with
  | 0 => ""
  | S n => String dot (dots n)
  end.

(** [module = "." * node.level; if node.module: module += node.module] *)
Definition from_source (module : option string) (level : nat) : string :=
  match module with
  | Some m => if String.eqb m "" then dots level else dots level +:+ m
  | None => dots level
  end.

(** The children of an [Import] or [ImportFrom] node are its [alias] nodes;
    no handler exists for them and they have no child nodes, so the trailing
    [generic_visit] of both handlers changes nothing. *)
Definition visit_Import (names : list alias) (self : ImportsFinder) : ImportsFinder :=
  foldl (λ self source, file_import (alias_name source, None) self) self names.

Definition visit_ImportFrom (module : option string) (names : list alias) (level : nat)
    (self : ImportsFinder) : ImportsFinder :=
  foldl (λ self source,
           file_import (from_source module level, Some (alias_name source)) self)
        self names.

Definition push_conditional (self : ImportsFinder) : ImportsFinder :=
  Finder (package self) (imports self) (direct_imports self)
    (conditional_imports self) (functions_imports self)
    (in_conditional self ++ [()]) (in_function self).

Definition push_function (self : ImportsFinder) : ImportsFinder :=
  Finder (package self) (imports self) (direct_imports self)
    (conditional_imports self) (functions_imports self)
    (in_conditional self) (in_function self ++ [()]).

(** [list.pop()]: the last element goes; an empty list raises [IndexError]. *)
Definition pop {A : Type} (l : list A) : result (list A) :=
  match l with
  | [] => Raise IndexError
  | _ :: _ => Ok (removelast l)
  end.

Definition pop_conditional (self : ImportsFinder) : result ImportsFinder :=
  l <~ pop (in_conditional self) ;;
  Ok (Finder (package self) (imports self) (direct_imports self)
        (conditional_imports self) (functions_imports self)
        l (in_function self)).

Definition pop_function (self : ImportsFinder) : result ImportsFinder :=
  l <~ pop (in_function self) ;;
  Ok (Finder (package self) (imports self) (direct_imports self)
        (conditional_imports self) (functions_imports self)
        (in_conditional self) l).

(** [NodeVisitor.visit] dispatching on the node kind, with
    [NodeVisitor.generic_visit] as the walk over the child nodes. *)
Fixpoint visit (node : ast) (self : ImportsFinder) {struct node} : result ImportsFinder :=
  let generic :=
    fix generic (children : list ast) (self : ImportsFinder) : result ImportsFinder :=
      match children with
      | [] => Ok self
      | child :: rest => self <~ visit child self ;; generic rest self
      end in
  match node with
  | Import names => Ok (visit_Import names self)
  | ImportFrom module names level => Ok (visit_ImportFrom module names level self)
  | If fields =>
      self <~ generic fields (push_conditional self) ;;
      pop_conditional self
  | FunctionDef fields =>
      self <~ generic fields (push_function self) ;;
      pop_function self
  | AsyncFunctionDef fields =>
      self <~ generic fields (push_function self) ;;
      pop_function self
  | Node fields => generic fields self
  end.

Fixpoint generic_visit (children : list ast) (self : ImportsFinder) : result ImportsFinder :=
  match children with
  | [] => Ok self
  | child :: rest => self <~ visit child self ;; generic_visit rest self
  end.

Definition visit_If (fields : list ast) (self : ImportsFinder) : result ImportsFinder :=
  self <~ generic_visit fields (push_conditional self) ;;
  pop_conditional self.

Definition visit_FunctionDef (fields : list ast) (self : ImportsFinder) : result ImportsFinder :=
  self <~ generic_visit fields (push_function self) ;;
  pop_function self.

Definition visit_AsyncFunctionDef (fields : list ast) (self : ImportsFinder)
    : result ImportsFinder :=
  self <~ generic_visit fields (push_function self) ;;
  pop_function self.

(** [ImportsFinder.search] *)
Definition search (tree : ast) (self : ImportsFinder) : result ImportsFinder :=
  visit tree self.

(** ** Where an import sits in the tree

    The import records of a tree in document order, each with the number of
    [If] nodes and the number of function or async-function nodes around it.
    This reads the nesting off the tree alone; the visitor is compared
    against it. *)

Record occurrence : Type := Occ {
  occ_record : ImportSpec;
  occ_ifs : nat;
  occ_defs : nat
}.

Fixpoint occurrences (ifs defs : nat) (node : ast) {struct node} : list occurrence :=
  let inside :=
    fix inside (ifs defs : nat) (children : list ast) : list occurrence :=
      match children with
      | [] => []
      | child :: rest => occurrences ifs defs child ++ inside ifs defs rest
      end in
  match node with
  | Import names =>
      map (λ a, Occ (alias_name a, None) ifs defs) names
  | ImportFrom module names level =>
      map (λ a, Occ (from_source module level, Some (alias_name a)) ifs defs) names
  | If fields => inside (S ifs) defs fields
  | FunctionDef fields => inside ifs (S defs) fields
  | AsyncFunctionDef fields => inside ifs (S defs) fields
  | Node fields => inside ifs defs fields
  end.

Fixpoint occurrences_in (ifs defs : nat) (children : list ast) : list occurrence :=
  match children with
  | [] => []
  | child :: rest => occurrences ifs defs child ++ occurrences_in ifs defs rest
  end.

Definition is_conditional (o : occurrence) : bool := negb (occ_ifs o =? 0).
Definition is_in_function (o : occurrence) : bool := negb (occ_defs o =? 0).
Definition is_direct (o : occurrence) : bool := (occ_ifs o =? 0) && (occ_defs o =? 0).

Definition records_where (p : occurrence → bool) (os : list occurrence) : list ImportSpec :=
  map occ_record (List.filter p os).

(** A finder after the occurrences [os] have been filed, stacks untouched. *)
Definition extend (self : ImportsFinder) (os : list occurrence) : ImportsFinder :=
  Finder (package self)
    (imports self ++ map occ_record os)
    (direct_imports self ++ records_where is_direct os)
    (conditional_imports self ++ records_where is_conditional os)
    (functions_imports self ++ records_where is_in_function os)
    (in_conditional self)
    (in_function self).

(** An occurrence under an [if] or under a function definition. *)
Definition is_nested (o : occurrence) : bool := is_conditional o || is_in_function o.

(** What a visit does to any finder: it files the occurrences below the
    node, counted from the current stack heights, and restores the stacks. *)
Definition visit_files (node : ast) : Prop :=
  ∀ self,
    visit node self =
    Ok (extend self
          (occurrences (length (in_conditional self)) (length (in_function self)) node)).

(** ** String operations of Python used by the resolver *)

(** [s.startswith(p)] *)
Definition startswith (s p : string) : bool := String.prefix p s.

(** [s.endswith(p)] *)
Definition endswith (s p : string) : bool :=
  (String.length p <=? String.length s) &&
  String.eqb (String.substring (String.length s - String.length p) (String.length p) s) p.

(** [sub in s] *)
Fixpoint str_in (sub s : string) : bool :=
  String.prefix sub s ||
  match s with
  | EmptyString => false
  | String _ s' => str_in sub s'
  end.

(** [s.split(sep)] for a separator of one character. *)
Fixpoint split (sep : ascii) (s : string) : list string :=
  match s with
  | EmptyString => [EmptyString]
  | String c s' =>
      if Ascii.eqb c sep then EmptyString :: split sep s'
      else match split sep s' with
           | [] => [String c EmptyString]
           | w :: ws => String c w :: ws
           end
  end.

(** [sep.join(l)] *)
Definition join (sep : string) (l : list string) : string := String.concat sep l.

(** [*init, last = l]: an empty [l] raises [ValueError]. *)
Fixpoint unpack_last {A : Type} (l : list A) : result (list A * A) :=
  match l with
  | [] => Raise ValueError
  | [x] => Ok ([], x)
  | x :: l' => p <~ unpack_last l' ;; Ok (x :: p.1, p.2)
  end.

(** ** The environment of a run

    What [requirements_info] reads from outside: the files it can open, the
    parser behind [ast.parse], and [importlib.util.find_spec]. *)

Record ModuleSpec : Type := Spec { spec_name : string; spec_origin : option string }.

Inductive find_result : Type :=
| Found (spec : ModuleSpec)      (* a spec is returned *)
| FoundNone                      (* [None] is returned *)
| ModuleNotFoundError            (* raises ModuleNotFoundError *)
| FindRaises (e : exn).          (* raises anything else *)

Record Env : Type := {
  fs : gmap string string;                           (* path -> text of the file *)
  parse : string → option ast;                       (* [None]: the text has a syntax error *)
  find_spec : string → option string → find_result
}.

(** [open(pyfile)] followed by [f.read()] *)
Definition read_file (E : Env) (pyfile : string) : result string :=
  match fs E !! pyfile with
  | Some source => Ok source
  | None => Raise (OSError pyfile)
  end.

(** [ast.parse(source, filename)]: a syntax error carries [filename]. *)
Definition ast_parse (E : Env) (source filename : string) : result ast :=
  match parse E source with
  | Some tree => Ok tree
  | None => Raise (SyntaxError filename)
  end.

(** The default of the [filename] parameter of [ast.parse]. *)
Definition unknown_filename : string := "<unknown>".

Definition find_imports (E : Env) (pyfile : string) (package : option string)
    : result (list ImportSpec) :=
  if endswith pyfile ".pyd" then Ok []
  else
    source <~ read_file E pyfile ;;
    file_ast <~ ast_parse E source unknown_filename ;;
    finder <~ search file_ast (init package) ;;
    Ok (direct_imports finder).

(** ** requirements_info *)

(** A queue entry: [((dependent, dependent_package), path)]. *)
Definition Entry : Type := (string * option string) * option string.

(** What a run has done so far, in order.  The loop never reads it. *)
Inductive event : Type :=
| Classified (path : string)                (* [find_imports] was called on [path] *)
| Resolved (dependent qualname : string).   (* the [if spec:] branch was taken *)

Global Instance event_eq_dec : EqDecision event.
Proof. solve_decision. Defined.

Record State : Type := MkState {
  visited : gset string;
  modules : gmap string (list string);
  queue : list Entry;
  history : list event
}.

(** Lines 111-122: the module name and the package handed to [find_spec]. *)
Definition resolution_target (dependent_package : option string) (imp : ImportSpec)
    : result (string * option string) :=
  let '(source, name) := imp in
  if String.eqb source "." then
    match name with
    | Some name => Ok ("." +:+ name, dependent_package)
    | None => Raise TypeError
    end
  else if startswith source "." then Ok (source, dependent_package)
  else if str_in "." source then
    p <~ unpack_last (split dot source) ;;
    Ok (p.2, Some (join "." p.1))
  else Ok (source, None).

(** [dict.setdefault(key, [])] *)
Definition setdefault (key : string) (m : gmap string (list string))
    : gmap string (list string) * list string :=
  match m !! key with
  | Some l => (m, l)
  | None => (<[key := []]> m, [])
  end.

(** Lines 129-131.  The list returned by [setdefault] is the one stored in
    the dict, so appending to it changes the entry under [dependent]. *)
Definition add_dependency (dependent qualname : string) (m : gmap string (list string))
    : gmap string (list string) :=
  let '(m, dependencies) := setdefault dependent m in
  if bool_decide (qualname ∈ dependencies) then m
  else <[dependent := dependencies ++ [qualname]]> m.

(** [spec.origin or "built-in"] *)
Definition module_path_of (spec : ModuleSpec) : string :=
  match spec_origin spec with
  | Some origin => if String.eqb origin "" then "built-in" else origin
  | None => "built-in"
  end.

(** One round of [for source, name in imports]. *)
Definition process_import (E : Env) (dependent : string) (dependent_package : option string)
    (st : State) (imp : ImportSpec) : result State :=
  target <~ resolution_target dependent_package imp ;;
  match find_spec E target.1 target.2 with
  | ModuleNotFoundError => Ok st
  | FindRaises e => Raise e
  | FoundNone => Ok st
  | Found spec =>
      let qualname := spec_name spec in
      let module_path := module_path_of spec in
      let entry : Entry :=
        if startswith imp.1 "."
        then ((qualname, Some dependent), Some module_path)
        else ((qualname, Some qualname), Some module_path) in
      Ok (MkState (visited st)
            (add_dependency dependent qualname (modules st))
            (queue st ++ [entry])
            (history st ++ [Resolved dependent qualname]))
  end.

Fixpoint process_imports (E : Env) (dependent : string) (dependent_package : option string)
    (imports : list ImportSpec) (st : State) : result State :=
  match imports with
  | [] => Ok st
  | imp :: rest =>
      st <~ process_import E dependent dependent_package st imp ;;
      process_imports E dependent dependent_package rest st
  end.

(** The body of the [while] loop for the entry just taken from the queue. *)
Definition loop_body (E : Env) (entry : Entry) (st : State) : result State :=
  let '((dependent, dependent_package), path) := entry in
  match path with
  | None => Ok st
  | Some path =>
      if String.eqb path "built-in" then Ok st
      else if bool_decide (path ∈ visited st) then Ok st
      else
        let st := MkState ({[path]} ∪ visited st) (modules st) (queue st)
                    (history st ++ [Classified path]) in
        imports <~ find_imports E path dependent_package ;;
        process_imports E dependent dependent_package imports st
  end.

(** [queue.get()] *)
Definition dequeue (st : State) : option (Entry * State) :=
  match queue st with
  | [] => None
  | entry :: rest => Some (entry, MkState (visited st) (modules st) rest (history st))
  end.

(** [while not queue.empty(): ...] run for at most [fuel] rounds; [None]
    when the rounds are used up with the queue still non-empty. *)
Fixpoint loop (E : Env) (fuel : nat) (st : State) : option (result State) :=
  match dequeue st with
  | None => Some (Ok st)
  | Some (entry, st) =>
      match fuel with
      | 0 => None
      | S fuel =>
          match loop_body E entry st with
          | Ok st => loop E fuel st
          | Raise e => Some (Raise e)
          end
      end
  end.

Definition initial (pyfile : string) : State :=
  MkState ∅ ∅ [(("__main__", None), Some pyfile)] [].

Definition requirements_info (E : Env) (fuel : nat) (pyfile : string)
    : option (result (gmap string (list string))) :=
  match loop E fuel (initial pyfile) with
  | Some (Ok st) => Some (Ok (modules st))
  | Some (Raise e) => Some (Raise e)
  | None => None
  end.

(** ** Runs of the loop as a transition system *)

(** One round of the [while] loop that ends without an exception. *)
Definition step (E : Env) (st st' : State) : Prop :=
  ∃ entry st1, dequeue st = Some (entry, st1) ∧ loop_body E entry st1 = Ok st'.

(** The states a run started on [pyfile] passes through between rounds. *)
Definition reachable (E : Env) (pyfile : string) (st : State) : Prop :=
  rtc (step E) (initial pyfile) st.

(** The paths [find_imports] was called on, in order. *)
Definition classified (h : list event) : list string :=
  omap (λ e, match e with Classified p => Some p | Resolved _ _ => None end) h.

(** The number of direct imports [find_imports] reports for a path. *)
Definition cost (E : Env) (path : string) : nat :=
  match find_imports E path None with
  | Ok imports => length imports
  | Raise _ => 0
  end.

(** What the files not yet visited can still add to the queue, plus one
    round for each of them. *)
Definition weight_of (E : Env) (vis : gset string) (files : list (string * string)) : nat :=
  sum_list ((λ f, if bool_decide (f.1 ∈ vis) then 0 else S (cost E f.1)) <$> files).

Definition weight (E : Env) (vis : gset string) : nat :=
  weight_of E vis (map_to_list (fs E)).

(** The measure that every round decreases. *)
Definition rounds_left (E : Env) (st : State) : nat :=
  length (queue st) + weight E (visited st).

(** Rounds that are enough for any run in environment [E]. *)
Definition fuel_bound (E : Env) : nat := S (weight E ∅).

(** ** The resolution target as the specification words it *)

(** The text after the last [dot] of [s] (all of [s] when it has none). *)
Fixpoint after_last_dot (s : string) : string :=
  match s with
  | EmptyString => EmptyString
  | String c s' =>
      if str_in "." s' then after_last_dot s'
      else if Ascii.eqb c dot then s' else s
  end.

(** The text before the last [dot] of [s] (empty when it has none). *)
Fixpoint before_last_dot (s : string) : string :=
  match s with
  | EmptyString => EmptyString
  | String c s' =>
      if str_in "." s' then String c (before_last_dot s') else EmptyString
  end.

(** The four cases of the specification, in its order. *)
Definition spec_target (package : option string) (imp : ImportSpec) : string * option string :=
  match imp with
  | (".", Some name) => ("." +:+ name, package)
  | (source, _) =>
      if startswith source "." then (source, package)
      else if str_in "." source then (after_last_dot source, Some (before_last_dot source))
      else (source, None)
  end.

(** A record as the parser can produce it: a lone [.] as source comes from a
    from-import and then has a name. *)
Definition well_formed (imp : ImportSpec) : Prop := imp.1 = "." → is_Some imp.2.

(** A tree as the parser can produce it: no plain import names a lone [.]. *)
Fixpoint plain_names_ok (node : ast) {struct node} : Prop :=
  let all :=
    fix all (children : list ast) : Prop :=
      match children with
      | [] => True
      | child :: rest => plain_names_ok child ∧ all rest
      end in
  match node with
  | Import names => Forall (λ a, alias_name a ≠ ".") names
  | ImportFrom _ _ _ => True
  | If fields | FunctionDef fields | AsyncFunctionDef fields | Node fields => all fields
  end.

Fixpoint plain_names_ok_in (children : list ast) : Prop :=
  match children with
  | [] => True
  | child :: rest => plain_names_ok child ∧ plain_names_ok_in rest
  end.

(** The package context [find_spec] is called with for an import. *)
Definition package_context (dependent_package : option string) (imp : ImportSpec)
    : result (option string) :=
  target <~ resolution_target dependent_package imp ;; Ok target.2.

(** An exception names a file when it carries that file's path. *)
Definition names_file (e : exn) (path : string) : Prop :=
  match e with
  | SyntaxError f | OSError f => f = path
  | _ => False
  end.

(** ** Concrete inputs *)

Definition plain (name : string) : alias := Alias name None.

(** [import os] at top level and again under an [if]. *)
Definition twice_tree : ast :=
  Node [Import [plain "os"]; If [Node []; Import [plain "os"]]].

(** [from . import b] and [from .. import c], each as a module of its own. *)
Definition from_dot_b : ast := Node [ImportFrom None [plain "b"] 1].
Definition from_dotdot_c : ast := Node [ImportFrom None [plain "c"] 2].

(** A parser given by a table from texts to trees. *)
Definition parse_table (table : list (string * ast)) (source : string) : option ast :=
  (list_to_map table : gmap string ast) !! source.

(** [find_spec] given by a table from module names to specs; the package
    argument is not looked at, and a missing name raises ModuleNotFoundError. *)
Definition find_table (table : list (string * ModuleSpec)) (name : string)
    (package : option string) : find_result :=
  match (list_to_map table : gmap string ModuleSpec) !! name with
  | Some spec => Found spec
  | None => ModuleNotFoundError
  end.

(** [main.py] imports [a] and the missing [nope]; [a.py] imports [main]
    back, and [sys], which has no origin, twice. *)
Definition cyclic_env : Env := {|
  fs := list_to_map [("main.py", "import a, nope"); ("a.py", "import main, sys, sys")];
  parse := parse_table
    [("import a, nope", Node [Import [plain "a"; plain "nope"]]);
     ("import main, sys, sys", Node [Import [plain "main"; plain "sys"; plain "sys"]])];
  find_spec := find_table
    [("a", Spec "a" (Some "a.py")); ("main", Spec "main" (Some "main.py"));
     ("sys", Spec "sys" None)]
|}.

(** The state in which the run of [cyclic_env] from [main.py] ends. *)
Definition cyclic_final : State :=
  match loop cyclic_env (fuel_bound cyclic_env) (initial "main.py") with
  | Some (Ok st) => st
  | _ => initial "main.py"
  end.

(** An oracle for the package [pkg] with subpackage [pkg.sub]: it resolves
    [..] to [pkg] itself and [.b] to the module [pkg.sub.b]. *)
Definition pkg_env : Env := {|
  fs := ∅;
  parse := parse_table [];
  find_spec := find_table
    [("..", Spec "pkg" (Some "pkg/__init__.py"));
     (".b", Spec "pkg.sub.b" (Some "pkg/sub/b.py"))]
|}.

(** [solo.py] imports one module, which is not installed. *)
Definition lonely_env : Env := {|
  fs := list_to_map [("solo.py", "import nope")];
  parse := parse_table [("import nope", Node [Import [plain "nope"]])];
  find_spec := find_table []
|}.

(** [bad.py] holds text the parser rejects. *)
Definition broken_env : Env := {|
  fs := list_to_map [("bad.py", "def (")];
  parse := parse_table [];
  find_spec := find_table []
|}.

(** ** Further notions used to describe the code *)

(** The tree with every [as] name dropped. *)
Fixpoint forget_asnames (node : ast) {struct node} : ast :=
  let bare := map (λ a, Alias (alias_name a) None) in
  match node with
  | Import names => Import (bare names)
  | ImportFrom module names level => ImportFrom module (bare names) level
  | If fields => If (map forget_asnames fields)
  | FunctionDef fields => FunctionDef (map forget_asnames fields)
  | AsyncFunctionDef fields => AsyncFunctionDef (map forget_asnames fields)
  | Node fields => Node (map forget_asnames fields)
  end.

(** A tree without any [if], function or async function. *)
Fixpoint no_scopes (node : ast) {struct node} : bool :=
  match node with
  | Import _ | ImportFrom _ _ _ => true
  | If _ | FunctionDef _ | AsyncFunctionDef _ => false
  | Node fields => forallb no_scopes fields
  end.

(** The names resolved for the dependent [k], in the order of the run. *)
Definition resolved_by (k : string) (h : list event) : list string :=
  omap (λ e, match e with
             | Resolved dependent qualname =>
                 if decide (dependent = k) then Some qualname else None
             | Classified _ => None
             end) h.

(** A list with only the first occurrence of every element kept. *)
Fixpoint first_seen (l : list string) : list string :=
  match l with
  | [] => []
  | x :: l => x :: filter (λ y, y ≠ x) (first_seen l)
  end.

(** The entry of a dict of lists that is absent rather than empty. *)
Definition entry_of (l : list string) : option (list string) :=
  match l with
  | [] => None
  | _ :: _ => Some l
  end.

(** The entry [requirements_info] starts from. *)
Definition seed (pyfile : string) : Entry := (("__main__", None), Some pyfile).

(** [q] is listed as a dependency of some module. *)
Definition recorded (q : string) (m : gmap string (list string)) : Prop :=
  ∃ k l, m !! k = Some l ∧ q ∈ l.

(** An entry as the loop itself puts it on the queue: with a package, a
    non-empty path, and a module that is somebody's dependency. *)
Definition put_by_loop (m : gmap string (list string)) (entry : Entry) : Prop :=
  ∃ q context path,
    entry = ((q, Some context), Some path) ∧ path ≠ "" ∧ recorded q m.

(** A path [find_imports] accepts: a compiled extension, or a file of the
    environment whose text parses. *)
Definition readable (E : Env) (path : string) : Prop :=
  endswith path ".pyd" = true ∨
  ∃ source tree, fs E !! path = Some source ∧ parse E source = Some tree.

(** [import numpy as np], and [import os] inside a loop inside a [try]. *)
Definition aliased_tree : ast := Node [Import [Alias "numpy" (Some "np")]].
Definition loop_tree : ast := Node [Node [Node [Import [plain "os"]]]].

(** [find_spec] as it behaves for a relative name without a package: it
    raises ImportError, which is not a ModuleNotFoundError. *)
Definition strict_env : Env := {|
  fs := list_to_map [("main.py", "from . import x")];
  parse := parse_table [("from . import x", Node [ImportFrom None [plain "x"] 1])];
  find_spec := λ name package,
    match package with
    | None => if startswith name "." then FindRaises (ImportError "no package specified")
              else ModuleNotFoundError
    | Some _ => ModuleNotFoundError
    end
|}.

(** The state of the run of [cyclic_env] after its first round. *)
Definition cyclic_after_one : State :=
  match loop_body cyclic_env (seed "main.py") (MkState ∅ ∅ [] []) with
  | Ok st => st
  | Raise _ => initial "main.py"
  end.

(** The module of a from-import as the parser gives it: no leading dot. *)
Definition module_ok (module : option string) : Prop :=
  ∀ m, module = Some m → startswith m "." = false.

(** [find_spec] answers the import [imp] of a file in package
    [dependent_package] with a spec: the target is computed and the answer
    for it is neither an exception nor [None]. *)
Definition resolves (E : Env) (dependent_package : option string) (imp : ImportSpec)
    : Prop :=
  ∃ target spec,
    resolution_target dependent_package imp = Ok target ∧
    find_spec E target.1 target.2 = Found spec.

(** The round that starts in [st] takes an entry for the module [k],
    classifies its file, and [find_spec] answers one of the direct imports
    of that file with a spec. *)
Definition round_resolves (E : Env) (st : State) (k : string) : Prop :=
  ∃ dependent_package path rest imports imp,
    queue st = ((k, dependent_package), Some path) :: rest ∧
    path ≠ "built-in" ∧ (path ∉ visited st) ∧
    find_imports E path dependent_package = Ok imports ∧
    imp ∈ imports ∧ resolves E dependent_package imp.

(** The qualified names [find_spec] answers for a list of imports, in the
    order of the imports; imports it does not answer with a spec give none. *)
Definition resolutions (E : Env) (dependent_package : option string)
    (imports : list ImportSpec) : list string :=
  omap (λ imp,
          match resolution_target dependent_package imp with
          | Ok target =>
              match find_spec E target.1 target.2 with
              | Found spec => Some (spec_name spec)
              | _ => None
              end
          | Raise _ => None
          end) imports.

(** The records of all import statements of a tree, in document order,
    whatever they are nested in. *)
Fixpoint records_of (node : ast) {struct node} : list ImportSpec :=
  let below :=
    fix below (children : list ast) : list ImportSpec :=
      match children with
      | [] => []
      | child :: rest => records_of child ++ below rest
      end in
  match node with
  | Import names => map (λ a, (alias_name a, None)) names
  | ImportFrom module names level =>
      map (λ a, (from_source module level, Some (alias_name a))) names
  | If fields | FunctionDef fields | AsyncFunctionDef fields | Node fields =>
      below fields
  end.

Fixpoint records_in (children : list ast) : list ImportSpec :=
  match children with
  | [] => []
  | child :: rest => records_of child ++ records_in rest
  end.

(** * Properties of the classifier *)

(** Induction on syntax trees with the hypothesis available for every child. *)
Lemma ast_nested_ind (P : ast → Prop) :
  (∀ names, P (Import names)) →
  (∀ module names level, P (ImportFrom module names level)) →
  (∀ fields, Forall P fields → P (If fields)) →
  (∀ fields, Forall P fields → P (FunctionDef fields)) →
  (∀ fields, Forall P fields → P (AsyncFunctionDef fields)) →
  (∀ fields, Forall P fields → P (Node fields)) →
  ∀ node, P node.
Proof.
  intros HI HF Hif Hdef Hadef Hnode.
  fix IH 1. intros node.
  assert (Hall : ∀ fields, Forall P fields).
  { fix IHl 1. intros [|child rest].
    - constructor.
    - constructor; [apply IH | apply IHl]. }
  destruct node as [names|module names level|fields|fields|fields|fields].
  - apply HI.
  - apply HF.
  - apply Hif, Hall.
  - apply Hdef, Hall.
  - apply Hadef, Hall.
  - apply Hnode, Hall.
Qed.

Lemma truthy_length {A : Type} (l : list A) : truthy l = negb (length l =? 0).
Proof. by destruct l. Qed.

Lemma records_where_app p os1 os2 :
  records_where p (os1 ++ os2) = records_where p os1 ++ records_where p os2.
Proof. unfold records_where. by rewrite List.filter_app, map_app. Qed.

Lemma extend_nil self : extend self [] = self.
Proof. destruct self. unfold extend, records_where. simpl. by rewrite !app_nil_r. Qed.

Lemma extend_app self os1 os2 : extend (extend self os1) os2 = extend self (os1 ++ os2).
Proof.
  unfold extend. simpl. rewrite !records_where_app, map_app.
  by rewrite !(assoc_L (++)).
Qed.

Lemma file_import_extend info self :
  file_import info self =
  extend self [Occ info (length (in_conditional self)) (length (in_function self))].
Proof.
  unfold file_import, extend, records_where, is_direct, is_conditional, is_in_function.
  rewrite !truthy_length. simpl.
  destruct (length (in_conditional self)), (length (in_function self)); simpl;
    by rewrite ?app_nil_r.
Qed.

Lemma visit_names_extend (mk : alias → ImportSpec) names self :
  foldl (λ self source, file_import (mk source) self) self names =
  extend self
    (map (λ a, Occ (mk a) (length (in_conditional self)) (length (in_function self))) names).
Proof.
  revert self. induction names as [|a names IH]; intros self; simpl.
  - by rewrite extend_nil.
  - rewrite IH, file_import_extend, extend_app. reflexivity.
Qed.

Lemma visit_If_unfold fields self : visit (If fields) self = visit_If fields self.
Proof. reflexivity. Qed.

Lemma visit_FunctionDef_unfold fields self :
  visit (FunctionDef fields) self = visit_FunctionDef fields self.
Proof. reflexivity. Qed.

Lemma visit_AsyncFunctionDef_unfold fields self :
  visit (AsyncFunctionDef fields) self = visit_AsyncFunctionDef fields self.
Proof. reflexivity. Qed.

Lemma visit_Node_unfold fields self : visit (Node fields) self = generic_visit fields self.
Proof. reflexivity. Qed.

Lemma pop_push {A : Type} (l : list A) (x : A) : pop (l ++ [x]) = Ok l.
Proof.
  unfold pop. destruct (l ++ [x]) eqn:Heq.
  - by destruct l.
  - rewrite <- Heq. by rewrite removelast_last.
Qed.

Lemma pop_conditional_push self os :
  pop_conditional (extend (push_conditional self) os) = Ok (extend self os).
Proof. unfold pop_conditional. simpl. by rewrite pop_push. Qed.

Lemma pop_function_push self os :
  pop_function (extend (push_function self) os) = Ok (extend self os).
Proof. unfold pop_function. simpl. by rewrite pop_push. Qed.

Lemma generic_visit_extend fields :
  Forall visit_files fields →
  ∀ self,
    generic_visit fields self =
    Ok (extend self
          (occurrences_in (length (in_conditional self)) (length (in_function self)) fields)).
Proof.
  induction 1 as [|child rest Hchild _ IH]; intros self; simpl.
  - by rewrite extend_nil.
  - rewrite Hchild. simpl. rewrite IH. simpl. by rewrite extend_app.
Qed.

Lemma visit_extend node : visit_files node.
Proof.
  induction node as [names|module names level|fields IH|fields IH|fields IH|fields IH]
    using ast_nested_ind; intros self.
  - simpl. unfold visit_Import. by rewrite (visit_names_extend (λ a, (alias_name a, None))).
  - simpl. unfold visit_ImportFrom.
    by rewrite (visit_names_extend (λ a, (from_source module level, Some (alias_name a)))).
  - rewrite visit_If_unfold. unfold visit_If.
    rewrite (generic_visit_extend _ IH). simpl.
    rewrite pop_conditional_push. by rewrite length_app, Nat.add_1_r.
  - rewrite visit_FunctionDef_unfold. unfold visit_FunctionDef.
    rewrite (generic_visit_extend _ IH). simpl.
    rewrite pop_function_push. by rewrite length_app, Nat.add_1_r.
  - rewrite visit_AsyncFunctionDef_unfold. unfold visit_AsyncFunctionDef.
    rewrite (generic_visit_extend _ IH). simpl.
    rewrite pop_function_push. by rewrite length_app, Nat.add_1_r.
  - rewrite visit_Node_unfold. by rewrite (generic_visit_extend _ IH).
Qed.

Lemma records_where_subseteq p os : records_where p os ⊆ map occ_record os.
Proof.
  intros r. unfold records_where. rewrite !list_elem_of_In, !in_map_iff.
  intros (o & Ho & Hin). apply filter_In in Hin as [Hin _]. eauto.
Qed.

Lemma filter_split_length {A : Type} (p : A → bool) (l : list A) :
  length (List.filter p l) + length (List.filter (λ x, negb (p x)) l) = length l.
Proof.
  induction l as [|x l IH]; simpl; [done|].
  destruct (p x); simpl; lia.
Qed.

Lemma is_direct_not_nested o : is_direct o = negb (is_nested o).
Proof.
  unfold is_direct, is_nested, is_conditional, is_in_function.
  by destruct (occ_ifs o =? 0), (occ_defs o =? 0).
Qed.

Lemma search_fresh tree package :
  search tree (init package) = Ok (extend (init package) (occurrences 0 0 tree)).
Proof. unfold search. by rewrite visit_extend. Qed.

(** C9: every visit, of an [if], a function, an async function or any other
    node, succeeds and leaves both nesting stacks as it found them; after a
    whole traversal from a fresh finder both are empty, and a second
    traversal with the same finder files its imports exactly as a traversal
    that starts at depth zero does. *)
Theorem nesting_stacks_balanced :
  (∀ node self, ∃ self',
      visit node self = Ok self' ∧
      in_conditional self' = in_conditional self ∧
      in_function self' = in_function self) ∧
  (∀ tree package, ∃ finder,
      search tree (init package) = Ok finder ∧
      in_conditional finder = [] ∧ in_function finder = []) ∧
  (∀ first second package, ∃ f1 f2,
      search first (init package) = Ok f1 ∧
      search second f1 = Ok f2 ∧
      in_conditional f2 = [] ∧ in_function f2 = [] ∧
      f2 = extend f1 (occurrences 0 0 second)).
Proof.
  split; [|split].
  - intros node self. eexists. split; [apply visit_extend|]. done.
  - intros tree package. eexists. split; [apply search_fresh|]. done.
  - intros first second package. eexists _, _.
    split; [apply search_fresh|].
    split; [unfold search; apply visit_extend|]. done.
Qed.

(** C1, counterexample: with [import os] at top level and again under an
    [if], the record [("os", None)] is in [direct_imports] and in
    [conditional_imports], so the two lists are not disjoint. *)
Lemma direct_and_conditional_share_a_record :
  ∃ finder,
    search twice_tree (init None) = Ok finder ∧
    ¬ (∀ r, r ∈ direct_imports finder → r ∉ conditional_imports finder).
Proof.
  eexists. split; [reflexivity|].
  intros Hdisjoint. apply (Hdisjoint ("os", None)); simpl; apply list_elem_of_here.
Qed.

(** C1, amended: the classifier files every import occurrence under
    [imports]; under [conditional_imports] iff at least one [if] encloses
    it, under [functions_imports] iff at least one function or async
    function encloses it, and under [direct_imports] iff neither does.  The
    three buckets are sublists of [imports], and no occurrence is filed as
    direct and as nested at once: the direct ones and the nested ones
    together count every occurrence once. *)
Theorem classifier_buckets (tree : ast) (package : option string) :
  ∃ finder,
    search tree (init package) = Ok finder ∧
    let os := occurrences 0 0 tree in
    imports finder = map occ_record os ∧
    conditional_imports finder = records_where is_conditional os ∧
    functions_imports finder = records_where is_in_function os ∧
    direct_imports finder = records_where is_direct os ∧
    direct_imports finder ⊆ imports finder ∧
    conditional_imports finder ⊆ imports finder ∧
    functions_imports finder ⊆ imports finder ∧
    (∀ o, is_direct o = negb (is_conditional o || is_in_function o)) ∧
    length (direct_imports finder) + length (records_where is_nested os)
      = length (imports finder).
Proof.
  eexists. split; [apply search_fresh|]. simpl.
  repeat split; try apply records_where_subseteq.
  - apply is_direct_not_nested.
  - unfold records_where. rewrite !length_map.
    rewrite <- (filter_split_length is_nested (occurrences 0 0 tree)).
    rewrite Nat.add_comm. f_equal.
    f_equal. apply List.filter_ext. intros o. apply is_direct_not_nested.
Qed.

(** * Properties of the string operations *)

Lemma str_in_dot_nil : str_in "." "" = false.
Proof. reflexivity. Qed.

Lemma startswith_dot_cons c s : startswith (String c s) "." = Ascii.eqb c dot.
Proof.
  unfold startswith. cbn [String.prefix].
  destruct (ascii_dec "." c) as [<-|Hne].
  - by destruct s.
  - symmetry. apply Ascii.eqb_neq. unfold dot. congruence.
Qed.

Lemma str_in_dot_cons c s : str_in "." (String c s) = Ascii.eqb c dot || str_in "." s.
Proof.
  change (str_in "." (String c s)) with (startswith (String c s) "." || str_in "." s).
  by rewrite startswith_dot_cons.
Qed.

Lemma join_cons_char c w l : join "." (String c w :: l) = String c (join "." (w :: l)).
Proof. by destruct l. Qed.

(** [split] never returns an empty list; without a dot it returns the
    string itself, and with one its last component is the text after the
    last dot while the others, joined again, are the text before it. *)
Lemma split_last_dot s :
  ∃ w ws,
    split dot s = w :: ws ∧
    (str_in "." s = false → w = s ∧ ws = []) ∧
    (str_in "." s = true →
       ∃ init, unpack_last (w :: ws) = Ok (w :: init, after_last_dot s) ∧
               join "." (w :: init) = before_last_dot s).
Proof.
  induction s as [|c s (w & ws & Hsplit & Hnone & Hsome)].
  - exists "", []. by repeat split.
  - cbn [split after_last_dot before_last_dot]. rewrite str_in_dot_cons, Hsplit.
    destruct (Ascii.eqb_spec c dot) as [->|Hne]; simpl orb.
    + exists "", (w :: ws). split; [done|]. split; [done|]. intros _.
      destruct (str_in "." s).
      * destruct Hsome as (init & Hunpack & Hjoin); [done|].
        exists (w :: init). split.
        -- change (unpack_last ("" :: w :: ws))
             with (p <~ unpack_last (w :: ws) ;; Ok ("" :: p.1, p.2)).
           by rewrite Hunpack.
        -- change (join "." ("" :: w :: init)) with (String dot (join "." (w :: init))).
           by rewrite Hjoin.
      * destruct Hnone as [-> ->]; [done|]. by exists [].
    + exists (String c w), ws. split; [done|].
      destruct (str_in "." s).
      * split; [done|]. intros _.
        destruct Hsome as (init & Hunpack & Hjoin); [done|].
        destruct ws as [|x ws]; [done|].
        change (unpack_last (w :: x :: ws))
          with (p <~ unpack_last (x :: ws) ;; Ok (w :: p.1, p.2)) in Hunpack.
        change (unpack_last (String c w :: x :: ws))
          with (p <~ unpack_last (x :: ws) ;; Ok (String c w :: p.1, p.2)).
        destruct (unpack_last (x :: ws)) as [[init' module]|]; [|done].
        simpl in Hunpack. injection Hunpack as <- <-.
        exists init'. split; [done|].
        by rewrite join_cons_char, Hjoin.
      * split; [|done]. intros _. destruct Hnone as [-> ->]; done.
Qed.

Lemma unpack_split_dotted s :
  str_in "." s = true →
  ∃ init, unpack_last (split dot s) = Ok (init, after_last_dot s) ∧
          join "." init = before_last_dot s.
Proof.
  intros Hdot. destruct (split_last_dot s) as (w & ws & -> & _ & Hsome).
  destruct (Hsome Hdot) as (init & ? & ?). eauto.
Qed.

(** The two halves around the last dot give the string back, and the
    second half has no dot. *)
Lemma last_dot_decomposition s :
  str_in "." s = true →
  s = before_last_dot s +:+ "." +:+ after_last_dot s ∧
  str_in "." (after_last_dot s) = false.
Proof.
  induction s as [|c s IH]; [done|].
  rewrite str_in_dot_cons. cbn [after_last_dot before_last_dot].
  destruct (str_in "." s) eqn:Hs.
  - intros _. destruct IH as [IH1 IH2]; [done|]. split; [|done].
    change (String c s = String c (before_last_dot s +:+ "." +:+ after_last_dot s)).
    by rewrite <- IH1.
  - rewrite orb_false_r. intros Hc. rewrite Hc.
    apply Ascii.eqb_eq in Hc as ->. done.
Qed.

Lemma spec_target_not_lone_dot package source name :
  source ≠ "." →
  spec_target package (source, name) =
  if startswith source "." then (source, package)
  else if str_in "." source then (after_last_dot source, Some (before_last_dot source))
  else (source, None).
Proof.
  intros Hne. unfold spec_target.
  destruct source as [|[[] [] [] [] [] [] [] []] [|c s]]; try reflexivity.
  all: destruct name; try reflexivity; done.
Qed.

(** * Properties of the resolution target *)

(** Every record the classifier files for a parser-made tree is well formed. *)
Lemma occurrences_well_formed node :
  ∀ ifs defs o,
    plain_names_ok node → o ∈ occurrences ifs defs node → well_formed (occ_record o).
Proof.
  induction node as [names|module names level|fields IH|fields IH|fields IH|fields IH]
    using ast_nested_ind; intros ifs defs o Hok Hin.
  1: { simpl in Hok, Hin. apply list_elem_of_fmap in Hin as (a & -> & Ha).
       rewrite Forall_forall in Hok. intros Hdot. by destruct (Hok a Ha). }
  1: { simpl in Hin. apply list_elem_of_fmap in Hin as (a & -> & Ha).
       intros _. by eexists. }
  all: change (plain_names_ok_in fields) in Hok.
  1: change (o ∈ occurrences_in (S ifs) defs fields) in Hin.
  2, 3: change (o ∈ occurrences_in ifs (S defs) fields) in Hin.
  4: change (o ∈ occurrences_in ifs defs fields) in Hin.
  all: revert Hok Hin; generalize ifs, defs; clear ifs defs; intros ifs defs;
    induction IH as [|child rest Hchild _ IHrest]; simpl;
    [by intros _ ?%not_elem_of_nil|];
    intros [Hc Hr] [Hin|Hin]%elem_of_app; eauto.
Qed.

Lemma direct_imports_well_formed tree package finder r :
  plain_names_ok tree →
  search tree (init package) = Ok finder →
  r ∈ direct_imports finder → well_formed r.
Proof.
  intros Hok Hsearch Hin. rewrite search_fresh in Hsearch. injection Hsearch as <-.
  simpl in Hin. apply records_where_subseteq in Hin.
  apply list_elem_of_fmap in Hin as (o & -> & Ho).
  by eapply occurrences_well_formed.
Qed.

(** So is every record the resolver gets from [find_imports]. *)
Lemma find_imports_well_formed E path package source tree imports :
  fs E !! path = Some source →
  parse E source = Some tree →
  plain_names_ok tree →
  find_imports E path package = Ok imports →
  Forall well_formed imports.
Proof.
  intros Hfile Hparse Hok. unfold find_imports, read_file, ast_parse.
  destruct (endswith path ".pyd"); [by intros [= <-]|].
  rewrite Hfile. simpl. rewrite Hparse. simpl.
  destruct (search tree (init package)) as [finder|] eqn:Hsearch; [|done].
  simpl. intros [= <-]. apply Forall_forall. intros r Hr.
  by eapply direct_imports_well_formed.
Qed.

(** C2: the module name and the package context computed for a record are
    the ones of the four-way case analysis: a lone [.] with a name gives
    [.name] and the current package; any other source that starts with [.]
    is kept, with the current package; a dotted absolute source gives its
    final component, with the text before the last dot as package; a bare
    name is kept, with no package. *)
Theorem resolution_target_cases (dependent_package : option string) (imp : ImportSpec) :
  well_formed imp →
  resolution_target dependent_package imp = Ok (spec_target dependent_package imp).
Proof.
  destruct imp as [source name]. intros Hwf. unfold resolution_target.
  destruct (String.eqb_spec source ".") as [->|Hne].
  - destruct (Hwf eq_refl) as [n Hn]. simpl in Hn. by rewrite Hn.
  - rewrite spec_target_not_lone_dot by done.
    destruct (startswith source "."); [done|].
    destruct (str_in "." source) eqn:Hdot; [|done].
    destruct (unpack_split_dotted _ Hdot) as (init & -> & <-). reflexivity.
Qed.

Lemma resolution_target_cases_witness :
  well_formed (".", Some "b") ∧
  resolution_target (Some "pkg.sub") (".", Some "b") = Ok (".b", Some "pkg.sub").
Proof.
  split.
  - intros _. by eexists.
  - apply (resolution_target_cases (Some "pkg.sub") (".", Some "b")).
    intros _. by eexists.
Defined.

Lemma from_source_relative module level :
  ∃ rest, from_source module (S level) = String dot rest.
Proof.
  unfold from_source. destruct module as [m|]; [destruct (String.eqb m "")|];
    simpl; eauto.
Qed.

(** C4, counterexample: for [from .. import c] in the module [pkg.sub.a],
    whose package is [pkg.sub], the package context handed to [find_spec]
    is [pkg.sub], and the one stored with the resolved target on the queue
    is [pkg.sub.a]; neither is [pkg]. *)
Lemma parent_package_not_computed :
  ∃ finder r target st',
    search from_dotdot_c (init (Some "pkg.sub")) = Ok finder ∧
    direct_imports finder = [r] ∧
    resolution_target (Some "pkg.sub") r = Ok target ∧
    target.2 = Some "pkg.sub" ∧
    target.2 ≠ Some "pkg" ∧
    process_import pkg_env "pkg.sub.a" (Some "pkg.sub") (MkState ∅ ∅ [] []) r = Ok st' ∧
    queue st' = [(("pkg", Some "pkg.sub.a"), Some "pkg/__init__.py")].
Proof.
  eexists _, _, _, _. split; [reflexivity|]. split; [reflexivity|].
  split; [reflexivity|]. split; [reflexivity|]. split; [discriminate|].
  split; [vm_compute; reflexivity|]. reflexivity.
Qed.

(** C4, amended: in a file whose package context is [pkg.sub], both
    [from . import b] and [from .. import c] are resolved with package
    context [pkg.sub]; a relative import of any level keeps the package of
    the file it is in. *)
Theorem relative_import_package_context :
  (∃ finder,
     search from_dot_b (init (Some "pkg.sub")) = Ok finder ∧
     map (package_context (Some "pkg.sub")) (direct_imports finder)
       = [Ok (Some "pkg.sub")]) ∧
  (∃ finder,
     search from_dotdot_c (init (Some "pkg.sub")) = Ok finder ∧
     map (package_context (Some "pkg.sub")) (direct_imports finder)
       = [Ok (Some "pkg.sub")]) ∧
  (∀ dependent_package module level name,
     package_context dependent_package (from_source module (S level), Some name)
       = Ok dependent_package).
Proof.
  split; [|split].
  - eexists. split; reflexivity.
  - eexists. split; reflexivity.
  - intros dependent_package module level name.
    destruct (from_source_relative module level) as [rest ->].
    unfold package_context, resolution_target.
    destruct (String.eqb (String dot rest) "."); [done|].
    rewrite startswith_dot_cons. reflexivity.
Qed.

(** * Properties of the resolver *)

Lemma add_dependency_lookup dependent qualname (m : gmap string (list string)) :
  add_dependency dependent qualname m !! dependent =
  Some (let old := default [] (m !! dependent) in
        if bool_decide (qualname ∈ old) then old else old ++ [qualname]).
Proof.
  unfold add_dependency, setdefault.
  destruct (m !! dependent) as [old|] eqn:Hold; simpl.
  - case_bool_decide; [done|]. by rewrite lookup_insert_eq.
  - by rewrite lookup_insert_eq.
Qed.

Lemma add_dependency_lookup_ne dependent qualname k (m : gmap string (list string)) :
  k ≠ dependent → add_dependency dependent qualname m !! k = m !! k.
Proof.
  intros Hne. unfold add_dependency, setdefault.
  destruct (m !! dependent) as [old|]; simpl; try case_bool_decide;
    by rewrite ?lookup_insert_ne.
Qed.

Section Run.

Context (E : Env).

(** The two ways a round of the inner loop can end without an exception. *)
Lemma process_import_cases dependent dependent_package st imp st' :
  process_import E dependent dependent_package st imp = Ok st' →
  st' = st ∨
  ∃ qualname entry,
    st' = MkState (visited st) (add_dependency dependent qualname (modules st))
            (queue st ++ [entry]) (history st ++ [Resolved dependent qualname]).
Proof.
  unfold process_import.
  destruct (resolution_target dependent_package imp) as [target|]; [|done]. simpl.
  destruct (find_spec E target.1 target.2) as [spec| | |]; try done.
  - intros [= <-]. right. eauto.
  - intros [= <-]. by left.
  - intros [= <-]. by left.
Qed.

(** The two ways a round of the outer loop can end without an exception. *)
Lemma loop_body_cases entry st st' :
  loop_body E entry st = Ok st' →
  st' = st ∨
  ∃ dependent dependent_package path imports,
    entry = ((dependent, dependent_package), Some path) ∧
    path ≠ "built-in" ∧ (path ∉ visited st) ∧
    find_imports E path dependent_package = Ok imports ∧
    process_imports E dependent dependent_package imports
      (MkState ({[path]} ∪ visited st) (modules st) (queue st)
         (history st ++ [Classified path])) = Ok st'.
Proof.
  destruct entry as [[dependent dependent_package] [path|]]; simpl.
  2: { intros [= <-]. by left. }
  destruct (String.eqb_spec path "built-in") as [->|Hne].
  { intros [= <-]. by left. }
  case_bool_decide as Hvis.
  { intros [= <-]. by left. }
  destruct (find_imports E path dependent_package) as [imports|] eqn:Hfind; [|done].
  simpl. intros Hrun. right. eauto 10.
Qed.

Lemma dequeue_cases st entry st1 :
  dequeue st = Some (entry, st1) →
  ∃ rest, queue st = entry :: rest ∧
          st1 = MkState (visited st) (modules st) rest (history st).
Proof.
  unfold dequeue. destruct (queue st) as [|e rest]; [done|].
  intros [= <- <-]. eauto.
Qed.

(** A property of states holds throughout a run once it survives the three
    things a run does: taking an entry from the queue, marking a path as
    visited, and recording a resolved import. *)
Lemma run_invariant (P : State → Prop) :
  (∀ st entry rest,
     P st → queue st = entry :: rest →
     P (MkState (visited st) (modules st) rest (history st))) →
  (∀ st path,
     P st → path ≠ "built-in" → path ∉ visited st →
     P (MkState ({[path]} ∪ visited st) (modules st) (queue st)
          (history st ++ [Classified path]))) →
  (∀ st dependent qualname entry,
     P st →
     P (MkState (visited st) (add_dependency dependent qualname (modules st))
          (queue st ++ [entry]) (history st ++ [Resolved dependent qualname]))) →
  ∀ st st', rtc (step E) st st' → P st → P st'.
Proof.
  intros Hget Hmark Hedge.
  assert (Hinner : ∀ dependent dependent_package imports st st',
    process_imports E dependent dependent_package imports st = Ok st' → P st → P st').
  { intros dependent dependent_package imports.
    induction imports as [|imp rest IH]; intros st st'; simpl.
    - by intros [= <-].
    - destruct (process_import E dependent dependent_package st imp) as [st1|] eqn:H1;
        [|done].
      simpl. intros Hrest HP. apply (IH _ _ Hrest).
      apply process_import_cases in H1 as [->|(qualname & entry & ->)]; auto. }
  induction 1 as [st|st st1 st' (entry & st0 & Hdeq & Hbody) _ IH]; [done|].
  intros HP. apply IH.
  apply dequeue_cases in Hdeq as (rest & Hq & ->).
  pose proof (Hget _ _ _ HP Hq) as HP0.
  apply loop_body_cases in Hbody
    as [->|(dependent & dependent_package & path & imports & -> & Hne & Hvis & _ & Hrun)];
    [done|].
  apply (Hinner _ _ _ _ _ Hrun). by apply Hmark.
Qed.

Lemma loop_reachable fuel st st' :
  loop E fuel st = Some (Ok st') → rtc (step E) st st'.
Proof.
  revert st. induction fuel as [|fuel IH]; intros st; simpl.
  - destruct (dequeue st) as [[entry st1]|]; [done|]. by intros [= <-].
  - destruct (dequeue st) as [[entry st1]|] eqn:Hdeq; [|by intros [= <-]].
    destruct (loop_body E entry st1) as [st2|] eqn:Hbody; [|done].
    intros Hloop. eapply rtc_l; [|by apply IH]. by exists entry, st1.
Qed.

(** More rounds never change an outcome that was reached. *)
Lemma loop_more_fuel fuel fuel' st outcome :
  loop E fuel st = Some outcome → fuel ≤ fuel' → loop E fuel' st = Some outcome.
Proof.
  revert fuel' st. induction fuel as [|fuel IH]; intros fuel' st; simpl.
  - destruct (dequeue st) as [[entry st1]|] eqn:Hdeq; [done|].
    intros [= <-] _. destruct fuel'; simpl; by rewrite Hdeq.
  - destruct (dequeue st) as [[entry st1]|] eqn:Hdeq.
    + intros Hloop Hle. destruct fuel' as [|fuel']; [lia|]. simpl. rewrite Hdeq.
      destruct (loop_body E entry st1) as [st2|]; [|done].
      apply IH; [done|lia].
    + intros [= <-] _. destruct fuel'; simpl; by rewrite Hdeq.
Qed.

(** An outcome reached from a later state of a run is the outcome of the
    run, given the rounds to get there. *)
Lemma loop_from_reachable st st' fuel outcome :
  rtc (step E) st st' → loop E fuel st' = Some outcome →
  ∃ fuel', loop E fuel' st = Some outcome.
Proof.
  induction 1 as [st|st st1 st' (entry & st0 & Hdeq & Hbody) _ IH]; [eauto|].
  intros Hloop. destruct (IH Hloop) as [fuel' Hfuel'].
  exists (S fuel'). simpl. by rewrite Hdeq, Hbody.
Qed.

(** ** Termination *)

Lemma find_imports_package path package package' :
  find_imports E path package = find_imports E path package'.
Proof.
  unfold find_imports. destruct (endswith path ".pyd"); [done|].
  destruct (read_file E path) as [source|]; [|done]. simpl.
  destruct (ast_parse E source unknown_filename) as [tree|]; [|done]. simpl.
  by rewrite !search_fresh.
Qed.

Lemma find_imports_cost path package imports :
  find_imports E path package = Ok imports → cost E path = length imports.
Proof.
  intros Hfind. unfold cost.
  by rewrite (find_imports_package path None package), Hfind.
Qed.

(** A path that yields imports is a file of the environment. *)
Lemma find_imports_file path package imports :
  find_imports E path package = Ok imports →
  imports = [] ∨ ∃ source, fs E !! path = Some source.
Proof.
  unfold find_imports, read_file. destruct (endswith path ".pyd").
  - intros [= <-]. by left.
  - destruct (fs E !! path) as [source|]; [|done]. eauto.
Qed.

Lemma weight_of_mono vis path files :
  weight_of E ({[path]} ∪ vis) files ≤ weight_of E vis files.
Proof.
  unfold weight_of. induction files as [|f files IH]; csimpl; [done|].
  destruct (decide (f.1 ∈ vis)) as [Hin|Hnin].
  - rewrite !bool_decide_eq_true_2 by set_solver. lia.
  - rewrite (bool_decide_eq_false_2 (f.1 ∈ vis)) by done. case_bool_decide; lia.
Qed.

Lemma weight_of_visit vis path source files :
  (path, source) ∈ files → path ∉ vis →
  weight_of E ({[path]} ∪ vis) files + S (cost E path) ≤ weight_of E vis files.
Proof.
  intros Hin Hvis. unfold weight_of.
  induction files as [|f files IH]; [by apply not_elem_of_nil in Hin|].
  apply elem_of_cons in Hin as [<-|Hin]; csimpl.
  - pose proof (weight_of_mono vis path files) as Hmono. unfold weight_of in Hmono.
    rewrite bool_decide_eq_true_2 by set_solver.
    rewrite bool_decide_eq_false_2 by done. lia.
  - specialize (IH Hin). destruct (decide (f.1 ∈ vis)) as [Hf|Hf].
    + rewrite !bool_decide_eq_true_2 by set_solver. lia.
    + rewrite (bool_decide_eq_false_2 (f.1 ∈ vis)) by done. case_bool_decide; lia.
Qed.

Lemma process_imports_queue dependent dependent_package imports st st' :
  process_imports E dependent dependent_package imports st = Ok st' →
  length (queue st') ≤ length (queue st) + length imports ∧ visited st' = visited st.
Proof.
  revert st. induction imports as [|imp rest IH]; intros st; simpl.
  - intros [= <-]. split; [lia|done].
  - destruct (process_import E dependent dependent_package st imp) as [st1|] eqn:H1;
      [|done].
    simpl. intros Hrest. destruct (IH _ Hrest) as [Hlen Hvis].
    apply process_import_cases in H1 as [->|(qualname & entry & ->)].
    + split; [lia|done].
    + simpl in *. rewrite length_app in Hlen. simpl in Hlen. split; [lia|done].
Qed.

(** A round of the loop never raises the measure. *)
Lemma loop_body_rounds entry st st' :
  loop_body E entry st = Ok st' → rounds_left E st' ≤ rounds_left E st.
Proof.
  intros Hbody. apply loop_body_cases in Hbody
    as [->|(dependent & dependent_package & path & imports & -> & Hne & Hvis & Hfind & Hrun)];
    [done|].
  apply process_imports_queue in Hrun as [Hlen Hsame]. simpl in Hlen, Hsame.
  unfold rounds_left, weight. rewrite Hsame.
  destruct (find_imports_file _ _ _ Hfind) as [->|[source Hsource]].
  - pose proof (weight_of_mono (visited st) path (map_to_list (fs E))).
    simpl in Hlen. lia.
  - apply elem_of_map_to_list in Hsource.
    pose proof (weight_of_visit _ _ _ _ Hsource Hvis).
    rewrite (find_imports_cost _ _ _ Hfind) in *. lia.
Qed.

Lemma loop_terminates fuel st :
  rounds_left E st ≤ fuel → ∃ outcome, loop E fuel st = Some outcome.
Proof.
  revert st. induction fuel as [|fuel IH]; intros st Hle; simpl.
  - destruct (dequeue st) as [[entry st1]|] eqn:Hdeq; [|eauto].
    apply dequeue_cases in Hdeq as (rest & Hq & _).
    unfold rounds_left in Hle. rewrite Hq in Hle. simpl in Hle. lia.
  - destruct (dequeue st) as [[entry st1]|] eqn:Hdeq; [|eauto].
    apply dequeue_cases in Hdeq as (rest & Hq & ->).
    destruct (loop_body E entry _) as [st2|] eqn:Hbody; [|eauto].
    apply IH. apply loop_body_rounds in Hbody.
    unfold rounds_left in *. rewrite Hq in Hle. simpl in *. lia.
Qed.

(** ** Invariants of a run *)

Lemma classified_app h1 h2 : classified (h1 ++ h2) = classified h1 ++ classified h2.
Proof. apply omap_app. Qed.

Lemma visited_classified st st' :
  rtc (step E) st st' →
  (NoDup (classified (history st)) ∧
   ∀ p, p ∈ classified (history st) ↔ p ∈ visited st) →
  NoDup (classified (history st')) ∧
  ∀ p, p ∈ classified (history st') ↔ p ∈ visited st'.
Proof.
  apply (run_invariant (λ st,
    NoDup (classified (history st)) ∧
    ∀ p, p ∈ classified (history st) ↔ p ∈ visited st)); simpl.
  - done.
  - intros s path [Hnd Hiff] _ Hvis. rewrite classified_app. simpl. split.
    + apply NoDup_app. split; [done|]. split; [|apply NoDup_singleton].
      intros p Hp ->%list_elem_of_singleton. by apply Hvis, Hiff.
    + intros p. rewrite elem_of_app, list_elem_of_singleton, Hiff. set_solver.
  - intros s dependent qualname entry [Hnd Hiff]. rewrite classified_app. simpl.
    by rewrite app_nil_r.
Qed.

Lemma visited_grows st st' : rtc (step E) st st' → visited st ⊆ visited st'.
Proof.
  intros Hrun. apply (run_invariant (λ s, visited st ⊆ visited s) ) with (st := st);
    simpl; try done.
  intros s path Hsub _ _. set_solver.
Qed.

Lemma builtin_never_classified st st' :
  rtc (step E) st st' →
  "built-in" ∉ classified (history st) → "built-in" ∉ classified (history st').
Proof.
  apply (run_invariant (λ st, "built-in" ∉ classified (history st))); simpl.
  - done.
  - intros s path Hno Hne _. rewrite classified_app. simpl.
    rewrite elem_of_app, list_elem_of_singleton. naive_solver.
  - intros s dependent qualname entry Hno. rewrite classified_app. simpl.
    by rewrite app_nil_r.
Qed.

Lemma add_dependency_extends dependent qualname k l (m : gmap string (list string)) :
  m !! k = Some l → ∃ l', add_dependency dependent qualname m !! k = Some (l ++ l').
Proof.
  intros Hk. destruct (decide (k = dependent)) as [->|Hne].
  - rewrite add_dependency_lookup, Hk. simpl. case_bool_decide.
    + exists []. by rewrite app_nil_r.
    + by exists [qualname].
  - rewrite add_dependency_lookup_ne by done. exists []. by rewrite app_nil_r.
Qed.

Lemma add_dependency_wellformed dependent qualname (m : gmap string (list string)) :
  (∀ k l, m !! k = Some l → NoDup l ∧ l ≠ []) →
  ∀ k l, add_dependency dependent qualname m !! k = Some l → NoDup l ∧ l ≠ [].
Proof.
  intros Hm k l. destruct (decide (k = dependent)) as [->|Hne].
  - rewrite add_dependency_lookup. intros [= <-].
    destruct (m !! dependent) as [old|] eqn:Hold; simpl.
    + destruct (Hm _ _ Hold) as [Hnd Hne]. case_bool_decide; [done|].
      split; [|by destruct old].
      apply NoDup_app. split; [done|]. split; [|apply NoDup_singleton].
      by intros x Hx ->%list_elem_of_singleton.
    + split; [apply NoDup_singleton|done].
  - rewrite add_dependency_lookup_ne by done. apply Hm.
Qed.

Lemma add_dependency_dom dependent qualname k (m : gmap string (list string)) :
  k ∈ dom (add_dependency dependent qualname m) ↔ k = dependent ∨ k ∈ dom m.
Proof.
  rewrite !elem_of_dom. destruct (decide (k = dependent)) as [->|Hne].
  - rewrite add_dependency_lookup. naive_solver.
  - rewrite add_dependency_lookup_ne by done. naive_solver.
Qed.

Lemma modules_extend st st' :
  rtc (step E) st st' →
  ∀ k l, modules st !! k = Some l → ∃ l', modules st' !! k = Some (l ++ l').
Proof.
  intros Hrun. apply (run_invariant
    (λ s, ∀ k l, modules st !! k = Some l → ∃ l', modules s !! k = Some (l ++ l')))
    with (st := st); simpl; try done.
  - intros s dependent qualname _ Hs k l Hk.
    destruct (Hs _ _ Hk) as [l1 Hl1].
    destruct (add_dependency_extends dependent qualname _ _ _ Hl1) as [l2 Hl2].
    exists (l1 ++ l2). by rewrite (assoc_L (++)).
  - intros k l Hk. exists []. by rewrite app_nil_r.
Qed.

Lemma modules_wellformed st st' :
  rtc (step E) st st' →
  (∀ k l, modules st !! k = Some l → NoDup l ∧ l ≠ []) →
  ∀ k l, modules st' !! k = Some l → NoDup l ∧ l ≠ [].
Proof.
  apply (run_invariant (λ s, ∀ k l, modules s !! k = Some l → NoDup l ∧ l ≠ []));
    simpl; try done.
  intros s dependent qualname _ Hs. by apply add_dependency_wellformed.
Qed.

Lemma keys_resolved st st' :
  rtc (step E) st st' →
  (∀ k, k ∈ dom (modules st) ↔ ∃ q, Resolved k q ∈ history st) →
  ∀ k, k ∈ dom (modules st') ↔ ∃ q, Resolved k q ∈ history st'.
Proof.
  apply (run_invariant
    (λ s, ∀ k, k ∈ dom (modules s) ↔ ∃ q, Resolved k q ∈ history s)); simpl.
  - done.
  - intros s path Hs _ _ k. rewrite Hs. setoid_rewrite elem_of_app.
    setoid_rewrite list_elem_of_singleton. naive_solver.
  - intros s dependent qualname _ Hs k. rewrite add_dependency_dom, Hs.
    setoid_rewrite elem_of_app. setoid_rewrite list_elem_of_singleton.
    naive_solver.
Qed.

Lemma requirements_info_loop fuel pyfile st :
  loop E fuel (initial pyfile) = Some (Ok st) →
  requirements_info E fuel pyfile = Some (Ok (modules st)).
Proof. unfold requirements_info. by intros ->. Qed.

(** Imports that all go unresolved leave the state as it is. *)
Lemma process_imports_unresolved dependent dependent_package imports st :
  Forall (λ imp, ∃ target,
            resolution_target dependent_package imp = Ok target ∧
            (find_spec E target.1 target.2 = ModuleNotFoundError ∨
             find_spec E target.1 target.2 = FoundNone)) imports →
  process_imports E dependent dependent_package imports st = Ok st.
Proof.
  induction 1 as [|imp rest (target & Htarget & Hfind) _ IH]; simpl; [done|].
  unfold process_import. rewrite Htarget. simpl.
  by destruct Hfind as [-> | ->].
Qed.

End Run.

(** * The claims about the resolver *)

Lemma cyclic_final_reachable : reachable cyclic_env "main.py" cyclic_final.
Proof.
  apply (loop_reachable cyclic_env (fuel_bound cyclic_env)). vm_compute. reflexivity.
Qed.

Lemma cyclic_after_one_step : step cyclic_env (initial "main.py") cyclic_after_one.
Proof.
  exists (seed "main.py"), (MkState ∅ ∅ [] []).
  split; [reflexivity|]. vm_compute. reflexivity.
Qed.

(** C3, counterexample: [sys] is resolved with no origin, and the round
    that records it also puts an entry for it on the queue. *)
Lemma builtin_is_enqueued :
  find_spec cyclic_env "sys" None = Found (Spec "sys" None) ∧
  ∃ st',
    process_import cyclic_env "a" (Some "a") (MkState ∅ ∅ [] []) ("sys", None) = Ok st' ∧
    queue st' = [(("sys", Some "sys"), Some "built-in")] ∧
    queue st' ≠ queue (MkState ∅ ∅ [] []).
Proof.
  split; [vm_compute; reflexivity|].
  eexists. split; [vm_compute; reflexivity|]. split; [reflexivity|discriminate].
Qed.

(** C3, amended: for an import resolved with no origin, the edge from the
    current dependent to the resolved name is recorded and one entry is put
    on the queue whose path is the marker [built-in]; the loop drops every
    entry with that path without doing anything, so [find_imports] is never
    called on it. *)
Theorem builtin_recorded_never_classified (E : Env) :
  (∀ dependent dependent_package st imp target spec,
     resolution_target dependent_package imp = Ok target →
     find_spec E target.1 target.2 = Found spec →
     spec_origin spec = None →
     ∃ st' context,
       process_import E dependent dependent_package st imp = Ok st' ∧
       (∃ l, modules st' !! dependent = Some l ∧ spec_name spec ∈ l) ∧
       queue st' = queue st ++ [((spec_name spec, context), Some "built-in")] ∧
       visited st' = visited st) ∧
  (∀ who st, loop_body E (who, Some "built-in") st = Ok st) ∧
  (∀ pyfile st, reachable E pyfile st → "built-in" ∉ classified (history st)).
Proof.
  split; [|split].
  - intros dependent dependent_package st imp target spec Htarget Hfind Horigin.
    unfold process_import. rewrite Htarget. simpl. rewrite Hfind.
    unfold module_path_of. rewrite Horigin.
    destruct (startswith imp.1 "."); eexists _, _; (split; [reflexivity|]); simpl.
    all: split; [|done].
    all: eexists; split; [apply add_dependency_lookup|]; simpl.
    all: case_bool_decide; [done|]; apply elem_of_app; right; apply list_elem_of_here.
  - by intros [dependent dependent_package] st.
  - intros pyfile st Hrun. apply (builtin_never_classified _ _ _ Hrun).
    apply not_elem_of_nil.
Qed.

Lemma builtin_recorded_never_classified_witness :
  resolution_target (Some "a") ("sys", None) = Ok ("sys", None) ∧
  find_spec cyclic_env "sys" None = Found (Spec "sys" None) ∧
  spec_origin (Spec "sys" None) = None ∧
  ∃ st' context,
    process_import cyclic_env "a" (Some "a") (initial "a.py") ("sys", None) = Ok st' ∧
    (∃ l, modules st' !! "a" = Some l ∧ "sys" ∈ l) ∧
    queue st' = queue (initial "a.py") ++ [(("sys", context), Some "built-in")] ∧
    visited st' = visited (initial "a.py").
Proof.
  split; [reflexivity|]. split; [vm_compute; reflexivity|]. split; [reflexivity|].
  apply (proj1 (builtin_recorded_never_classified cyclic_env)
           "a" (Some "a") (initial "a.py") ("sys", None) ("sys", None) (Spec "sys" None)).
  - reflexivity.
  - vm_compute; reflexivity.
  - reflexivity.
Defined.

(** C5: in every run each path is handed to [find_imports] at most once:
    the paths classified so far have no repetition and are exactly the
    visited ones, the visited set only grows, an entry whose path is
    already visited is dropped with the state untouched, and the run ends,
    with a result or an exception, within [fuel_bound] rounds whatever the
    files import. *)
Theorem each_path_classified_once (E : Env) (pyfile : string) :
  (∀ st, reachable E pyfile st →
     NoDup (classified (history st)) ∧
     ∀ p, p ∈ classified (history st) ↔ p ∈ visited st) ∧
  (∀ st st', rtc (step E) st st' → visited st ⊆ visited st') ∧
  (∀ who path st, path ∈ visited st → loop_body E (who, Some path) st = Ok st) ∧
  (∃ outcome, ∀ fuel,
     fuel_bound E ≤ fuel → requirements_info E fuel pyfile = Some outcome).
Proof.
  split; [|split; [|split]].
  - intros st Hrun. apply (visited_classified _ _ _ Hrun). simpl.
    split; [apply NoDup_nil_2|]. intros p. set_solver.
  - intros st st'. apply visited_grows.
  - intros [dependent dependent_package] path st Hvis. simpl.
    destruct (String.eqb path "built-in"); [done|].
    by rewrite bool_decide_eq_true_2.
  - destruct (loop_terminates E (fuel_bound E) (initial pyfile)) as [outcome Hloop].
    { unfold rounds_left, fuel_bound. simpl. lia. }
    exists (match outcome with Ok st => Ok (modules st) | Raise e => Raise e end).
    intros fuel Hfuel. unfold requirements_info.
    rewrite (loop_more_fuel _ _ _ _ _ Hloop Hfuel). by destruct outcome.
Qed.

Lemma each_path_classified_once_witness :
  reachable cyclic_env "main.py" cyclic_final ∧
  NoDup (classified (history cyclic_final)) ∧
  ∀ p, p ∈ classified (history cyclic_final) ↔ p ∈ visited cyclic_final.
Proof.
  pose proof cyclic_final_reachable as Hrun.
  split; [exact Hrun|].
  exact (proj1 (each_path_classified_once cyclic_env "main.py") cyclic_final Hrun).
Defined.

(** The run of [cyclic_env]: both files are classified once although each
    imports the other, [nope] leaves no trace, and [sys] is listed once. *)
Example cyclic_run :
  loop cyclic_env (fuel_bound cyclic_env) (initial "main.py") = Some (Ok cyclic_final) ∧
  history cyclic_final =
    [Classified "main.py"; Resolved "__main__" "a"; Classified "a.py";
     Resolved "a" "main"; Resolved "a" "sys"; Resolved "a" "sys"] ∧
  map_to_list (modules cyclic_final) = [("__main__", ["a"]); ("a", ["main"; "sys"])].
Proof. vm_compute. done. Qed.

(** C6: recording an edge appends the resolved name to the dependent's list
    iff it is not in the list yet and touches no other list; from one state
    of a run to any later one, and within a single import, every list is
    only extended at its end; and no list of a run holds a name twice. *)
Theorem dependencies_deduplicated_in_order (E : Env) :
  (∀ dependent qualname (m : gmap string (list string)),
     add_dependency dependent qualname m !! dependent =
       Some (let old := default [] (m !! dependent) in
             if bool_decide (qualname ∈ old) then old else old ++ [qualname]) ∧
     ∀ k, k ≠ dependent → add_dependency dependent qualname m !! k = m !! k) ∧
  (∀ dependent dependent_package st imp st',
     process_import E dependent dependent_package st imp = Ok st' →
     ∀ k l, modules st !! k = Some l → ∃ l', modules st' !! k = Some (l ++ l')) ∧
  (∀ st st', rtc (step E) st st' →
     ∀ k l, modules st !! k = Some l → ∃ l', modules st' !! k = Some (l ++ l')) ∧
  (∀ pyfile st, reachable E pyfile st →
     ∀ k l, modules st !! k = Some l → NoDup l).
Proof.
  split; [|split; [|split]].
  - intros dependent qualname m. split.
    + apply add_dependency_lookup.
    + intros k Hne. by apply add_dependency_lookup_ne.
  - intros dependent dependent_package st imp st' Hstep k l Hk.
    apply process_import_cases in Hstep as [->|(qualname & entry & ->)].
    + exists []. by rewrite app_nil_r.
    + simpl. by apply add_dependency_extends.
  - intros st st'. apply modules_extend.
  - intros pyfile st Hrun k l Hk.
    refine (proj1 (modules_wellformed _ _ _ Hrun _ k l Hk)).
    intros k' l'. simpl. by rewrite lookup_empty.
Qed.

Lemma dependencies_deduplicated_in_order_witness :
  reachable cyclic_env "main.py" cyclic_final ∧
  modules cyclic_final !! "a" = Some ["main"; "sys"] ∧
  NoDup ["main"; "sys"].
Proof.
  pose proof cyclic_final_reachable as Hrun.
  assert (Ha : modules cyclic_final !! "a" = Some ["main"; "sys"]).
  { vm_compute. reflexivity. }
  split; [exact Hrun|]. split; [exact Ha|].
  exact (proj2 (proj2 (proj2 (dependencies_deduplicated_in_order cyclic_env)))
           "main.py" cyclic_final Hrun "a" ["main"; "sys"] Ha).
Defined.

(** C7: when [find_spec] raises ModuleNotFoundError or returns [None] for
    the target of an import, the round for that import ends without an
    exception and with the state as it was -- no edge, nothing put on the
    queue -- and the loop goes on with the imports that remain. *)
Theorem unresolved_import_skipped (E : Env) (dependent : string)
    (dependent_package : option string) (st : State) (imp : ImportSpec)
    (rest : list ImportSpec) (target : string * option string) :
  resolution_target dependent_package imp = Ok target →
  find_spec E target.1 target.2 = ModuleNotFoundError ∨
  find_spec E target.1 target.2 = FoundNone →
  process_import E dependent dependent_package st imp = Ok st ∧
  process_imports E dependent dependent_package (imp :: rest) st =
    process_imports E dependent dependent_package rest st.
Proof.
  intros Htarget Hfind.
  assert (Hskip : process_import E dependent dependent_package st imp = Ok st).
  { unfold process_import. rewrite Htarget. simpl. by destruct Hfind as [-> | ->]. }
  split; [done|]. simpl. by rewrite Hskip.
Qed.

Lemma unresolved_import_skipped_witness :
  resolution_target None ("nope", None) = Ok ("nope", None) ∧
  find_spec cyclic_env "nope" None = ModuleNotFoundError ∧
  process_import cyclic_env "__main__" None (initial "main.py") ("nope", None)
    = Ok (initial "main.py").
Proof.
  assert (Hfind : find_spec cyclic_env "nope" None = ModuleNotFoundError).
  { vm_compute. reflexivity. }
  split; [reflexivity|]. split; [exact Hfind|].
  exact (proj1 (unresolved_import_skipped cyclic_env "__main__" None (initial "main.py")
                  ("nope", None) [] ("nope", None) eq_refl (or_introl Hfind))).
Defined.

(** C8, counterexample: [bad.py] has a syntax error, and the exception that
    [find_imports] raises for it does not carry its path. *)
Lemma syntax_error_does_not_name_file :
  fs broken_env !! "bad.py" = Some "def (" ∧
  parse broken_env "def (" = None ∧
  ∃ e, find_imports broken_env "bad.py" None = Raise e ∧ ¬ names_file e "bad.py".
Proof.
  split; [vm_compute; reflexivity|]. split; [vm_compute; reflexivity|].
  eexists. split; [vm_compute; reflexivity|]. simpl. discriminate.
Qed.

(** C8, amended: for a file that is not a [.pyd] and whose text the parser
    rejects, [find_imports] raises the parser's syntax error, which carries
    the parser's default file name; the loop does not catch it, so a run
    that reaches the file unvisited ends with that exception. *)
Theorem syntax_error_aborts_run (E : Env) (path source : string) :
  endswith path ".pyd" = false →
  fs E !! path = Some source →
  parse E source = None →
  (∀ package, find_imports E path package = Raise (SyntaxError unknown_filename)) ∧
  (∀ pyfile st who rest,
     reachable E pyfile st →
     queue st = (who, Some path) :: rest →
     path ≠ "built-in" → path ∉ visited st →
     ∃ n, ∀ fuel, n ≤ fuel →
       requirements_info E fuel pyfile = Some (Raise (SyntaxError unknown_filename))).
Proof.
  intros Hpyd Hfile Hparse.
  assert (Hfind : ∀ package,
    find_imports E path package = Raise (SyntaxError unknown_filename)).
  { intros package. unfold find_imports, read_file, ast_parse.
    rewrite Hpyd, Hfile. simpl. by rewrite Hparse. }
  split; [done|].
  intros pyfile st [dependent dependent_package] rest Hrun Hqueue Hne Hvis.
  assert (Hloop : loop E 1 st = Some (Raise (SyntaxError unknown_filename))).
  { simpl. unfold dequeue. rewrite Hqueue. simpl.
    rewrite (proj2 (String.eqb_neq _ _) Hne).
    rewrite bool_decide_eq_false_2 by done. by rewrite Hfind. }
  destruct (loop_from_reachable _ _ _ _ _ Hrun Hloop) as [n Hn].
  exists n. intros fuel Hfuel. unfold requirements_info.
  by rewrite (loop_more_fuel _ _ _ _ _ Hn Hfuel).
Qed.

Lemma syntax_error_aborts_run_witness :
  endswith "bad.py" ".pyd" = false ∧
  fs broken_env !! "bad.py" = Some "def (" ∧
  parse broken_env "def (" = None ∧
  ∀ package, find_imports broken_env "bad.py" package = Raise (SyntaxError unknown_filename).
Proof.
  assert (Hfile : fs broken_env !! "bad.py" = Some "def (") by (vm_compute; reflexivity).
  assert (Hparse : parse broken_env "def (" = None) by (vm_compute; reflexivity).
  split; [reflexivity|]. split; [exact Hfile|]. split; [exact Hparse|].
  exact (proj1 (syntax_error_aborts_run broken_env "bad.py" "def (" eq_refl Hfile Hparse)).
Defined.

Section Keys.

Context (E : Env).

(** A round for one import either leaves the mapping alone, when
    [find_spec] gives no spec, or records one edge of the dependent. *)
Lemma process_import_resolved dependent dependent_package st imp st' :
  process_import E dependent dependent_package st imp = Ok st' →
  (resolves E dependent_package imp ∧
   ∃ spec target,
     resolution_target dependent_package imp = Ok target ∧
     find_spec E target.1 target.2 = Found spec ∧
     modules st' = add_dependency dependent (spec_name spec) (modules st) ∧
     history st' = history st ++ [Resolved dependent (spec_name spec)]) ∨
  (¬ resolves E dependent_package imp ∧
   modules st' = modules st ∧ history st' = history st).
Proof.
  unfold process_import, resolves.
  destruct (resolution_target dependent_package imp) as [target|] eqn:Htarget; [|done].
  simpl. destruct (find_spec E target.1 target.2) as [spec| | |] eqn:Hfind; try done.
  - intros [= <-]. left. split; [by exists target, spec|]. by exists spec, target.
  - intros [= <-]. right. split; [|done].
    intros (t & sp & [= <-] & Hsp). congruence.
  - intros [= <-]. right. split; [|done].
    intros (t & sp & [= <-] & Hsp). congruence.
Qed.

(** The keys after the imports of one file: those there were, and the
    dependent iff [find_spec] answered one of the imports with a spec. *)
Lemma process_imports_keys dependent dependent_package imports st st' :
  process_imports E dependent dependent_package imports st = Ok st' →
  ∀ k, k ∈ dom (modules st') ↔
       k ∈ dom (modules st) ∨
       (k = dependent ∧ ∃ imp, imp ∈ imports ∧ resolves E dependent_package imp).
Proof.
  revert st. induction imports as [|imp rest IH]; intros st; simpl.
  - intros [= <-] k. split; [by left|]. intros [?|(_ & imp & ?%not_elem_of_nil & _)]; done.
  - destruct (process_import E dependent dependent_package st imp) as [st1|] eqn:H1;
      [|done].
    simpl. intros Hrest k. rewrite (IH _ Hrest k).
    setoid_rewrite elem_of_cons.
    apply process_import_resolved in H1
      as [(Hres & spec & target & _ & _ & -> & _)|(Hno & -> & _)].
    + rewrite add_dependency_dom. naive_solver.
    + naive_solver.
Qed.

(** A round that classifies a file runs the loop over its direct imports. *)
Lemma step_classifies st st' dependent dependent_package path rest imports :
  step E st st' →
  queue st = ((dependent, dependent_package), Some path) :: rest →
  path ≠ "built-in" → (path ∉ visited st) →
  find_imports E path dependent_package = Ok imports →
  process_imports E dependent dependent_package imports
    (MkState ({[path]} ∪ visited st) (modules st) rest
       (history st ++ [Classified path])) = Ok st'.
Proof.
  intros (entry & st0 & Hdeq & Hbody) Hq Hne Hvis Hfind.
  apply dequeue_cases in Hdeq as (rest' & Hq' & ->).
  rewrite Hq in Hq'. injection Hq' as <- <-.
  simpl in Hbody. rewrite (proj2 (String.eqb_neq _ _) Hne) in Hbody.
  rewrite bool_decide_eq_false_2 in Hbody by done.
  by rewrite Hfind in Hbody.
Qed.

(** The keys after one round of the loop. *)
Lemma step_keys st st' :
  step E st st' →
  ∀ k, k ∈ dom (modules st') ↔ k ∈ dom (modules st) ∨ round_resolves E st k.
Proof.
  intros Hstep k. split.
  - destruct Hstep as (entry & st0 & Hdeq & Hbody).
    apply dequeue_cases in Hdeq as (rest & Hq & ->).
    apply loop_body_cases in Hbody
      as [->|(dependent & dependent_package & path & imports & -> & Hne & Hvis & Hfind & Hrun)];
      [by left|].
    intros Hk. apply (process_imports_keys _ _ _ _ _ Hrun) in Hk
      as [Hk|(-> & imp & Himp & Hres)]; [by left|].
    right. by exists dependent_package, path, rest, imports, imp.
  - intros [Hk|(dependent_package & path & rest & imports & imp
                & Hq & Hne & Hvis & Hfind & Himp & Hres)].
    + destruct Hstep as (entry & st0 & Hdeq & Hbody).
      apply elem_of_dom in Hk as [l Hl].
      assert (Hrtc : rtc (step E) st st') by (apply rtc_once; by exists entry, st0).
      destruct (modules_extend E _ _ Hrtc _ _ Hl) as [l' Hl'].
      apply elem_of_dom. eauto.
    + pose proof (step_classifies _ _ _ _ _ _ _ Hstep Hq Hne Hvis Hfind) as Hrun.
      apply (process_imports_keys _ _ _ _ _ Hrun). right. split; [done|]. eauto.
Qed.

Lemma keys_grow st st' : rtc (step E) st st' → dom (modules st) ⊆ dom (modules st').
Proof.
  intros Hrun k [l Hl]%elem_of_dom.
  destruct (modules_extend E _ _ Hrun _ _ Hl) as [l' Hl']. apply elem_of_dom. eauto.
Qed.

(** The keys at any point of a run. *)
Lemma run_keys pyfile st :
  reachable E pyfile st →
  ∀ k, k ∈ dom (modules st) ↔
       ∃ st1 st2,
         reachable E pyfile st1 ∧ step E st1 st2 ∧ rtc (step E) st2 st ∧
         round_resolves E st1 k.
Proof.
  intros Hrun k. split.
  - revert k. pattern st.
    apply (rtc_ind_r (R := step E) _ (initial pyfile)); [| |exact Hrun]; clear st Hrun.
    { intros k. simpl. rewrite dom_empty_L. set_solver. }
    intros st1 st2 Hrun Hstep IH k.
    intros [Hk|Hround]%(step_keys _ _ Hstep).
    + destruct (IH k Hk) as (s1 & s2 & Hto & Hs & Hfrom & Hround).
      exists s1, s2. split; [done|]. split; [done|]. split; [|done]. by eapply rtc_r.
    + exists st1, st2. split; [done|]. split; [done|]. split; [apply rtc_refl|done].
  - intros (st1 & st2 & _ & Hstep & Hfrom & Hround).
    apply (keys_grow _ _ Hfrom). apply (step_keys _ _ Hstep). by right.
Qed.

End Keys.

(** C10: a module is a key of the mapping iff [find_spec] answered one of
    the direct imports of its file with a spec.  For one import: if it is
    answered, the dependent is a key afterwards, and if not, the mapping is
    as before.  For a run: at every point, and so in the mapping it
    returns, [k] is a key iff in some completed round the file of an entry
    for [k] was classified and one of its direct imports was answered; the
    same holds with the run's own record of resolved imports, and no key
    has an empty list.  An entry file none of whose direct imports is
    answered gives the empty mapping. *)
Theorem keys_have_a_resolved_import (E : Env) (pyfile : string) :
  (∀ dependent dependent_package st imp st',
     process_import E dependent dependent_package st imp = Ok st' →
     (resolves E dependent_package imp → dependent ∈ dom (modules st')) ∧
     (¬ resolves E dependent_package imp → modules st' = modules st)) ∧
  (∀ st, reachable E pyfile st →
     ∀ k, k ∈ dom (modules st) ↔
          ∃ st1 st2,
            reachable E pyfile st1 ∧ step E st1 st2 ∧ rtc (step E) st2 st ∧
            round_resolves E st1 k) ∧
  (∀ st, reachable E pyfile st →
     (∀ k, k ∈ dom (modules st) ↔ ∃ q, Resolved k q ∈ history st) ∧
     (∀ k l, modules st !! k = Some l → l ≠ [])) ∧
  (∀ fuel st, loop E fuel (initial pyfile) = Some (Ok st) →
     requirements_info E fuel pyfile = Some (Ok (modules st)) ∧
     reachable E pyfile st) ∧
  (∀ imports fuel,
     pyfile ≠ "built-in" →
     find_imports E pyfile None = Ok imports →
     Forall (λ imp, ∃ target,
               resolution_target None imp = Ok target ∧
               (find_spec E target.1 target.2 = ModuleNotFoundError ∨
                find_spec E target.1 target.2 = FoundNone)) imports →
     requirements_info E (S fuel) pyfile = Some (Ok ∅)).
Proof.
  split; [|split; [|split; [|split]]].
  - intros dependent dependent_package st imp st' Hone.
    apply process_import_resolved in Hone
      as [(Hres & spec & target & _ & _ & Hm & _)|(Hno & Hm & _)].
    + split; [|done]. intros _. rewrite Hm. apply add_dependency_dom. by left.
    + split; [done|]. by intros _.
  - intros st Hrun. by apply run_keys.
  - intros st Hrun. split.
    + apply (keys_resolved _ _ _ Hrun). intros k. simpl. rewrite dom_empty_L.
      split; [set_solver|]. intros [q Hq]. by apply not_elem_of_nil in Hq.
    + intros k l Hk.
      refine (proj2 (modules_wellformed _ _ _ Hrun _ k l Hk)).
      intros k' l'. simpl. by rewrite lookup_empty.
  - intros fuel st Hloop. split.
    + by apply requirements_info_loop.
    + by apply loop_reachable in Hloop.
  - intros imports fuel Hne Hfind Hall.
    unfold requirements_info. simpl.
    rewrite (proj2 (String.eqb_neq _ _) Hne).
    rewrite bool_decide_eq_false_2 by set_solver.
    rewrite Hfind. simpl.
    rewrite (process_imports_unresolved _ _ _ _ _ Hall).
    by destruct fuel.
Qed.

Lemma keys_have_a_resolved_import_witness :
  reachable cyclic_env "main.py" cyclic_final ∧
  "a" ∈ dom (modules cyclic_final) ∧
  (∃ st1 st2,
     reachable cyclic_env "main.py" st1 ∧ step cyclic_env st1 st2 ∧
     rtc (step cyclic_env) st2 cyclic_final ∧ round_resolves cyclic_env st1 "a") ∧
  resolves cyclic_env None ("a", None) ∧
  "__main__" ∈ dom (modules cyclic_after_one) ∧
  find_imports lonely_env "solo.py" None = Ok [("nope", None)] ∧
  requirements_info lonely_env 1 "solo.py" = Some (Ok ∅).
Proof.
  pose proof cyclic_final_reachable as Hrun.
  assert (Ha : "a" ∈ dom (modules cyclic_final)).
  { apply elem_of_dom. exists ["main"; "sys"]. vm_compute. reflexivity. }
  assert (Hres : resolves cyclic_env None ("a", None)).
  { exists ("a", None), (Spec "a" (Some "a.py")). split; [reflexivity|].
    vm_compute. reflexivity. }
  assert (Hone : process_import cyclic_env "__main__" None
                   (MkState {["main.py"]} ∅ [] [Classified "main.py"]) ("a", None)
                 = Ok (MkState {["main.py"]}
                         (add_dependency "__main__" "a" ∅)
                         [(("a", Some "a"), Some "a.py")]
                         [Classified "main.py"; Resolved "__main__" "a"])).
  { vm_compute. reflexivity. }
  assert (Hfind : find_imports lonely_env "solo.py" None = Ok [("nope", None)]).
  { vm_compute. reflexivity. }
  split; [exact Hrun|]. split; [exact Ha|].
  split; [exact (proj1 (proj1 (proj2 (keys_have_a_resolved_import cyclic_env "main.py"))
                          cyclic_final Hrun "a") Ha)|].
  split; [exact Hres|].
  split.
  { pose proof (proj1 (proj1 (keys_have_a_resolved_import cyclic_env "main.py")
                         _ _ _ _ _ Hone) Hres) as Hkey.
    vm_compute in Hkey. vm_compute. exact Hkey. }
  split; [exact Hfind|].
  apply (proj2 (proj2 (proj2 (proj2 (keys_have_a_resolved_import lonely_env "solo.py"))))
           [("nope", None)] 0).
  - discriminate.
  - exact Hfind.
  - constructor; [|constructor]. exists ("nope", None).
    split; [reflexivity|]. left. vm_compute. reflexivity.
Defined.

(** * Further properties of the classifier *)

Lemma occurrences_in_elem ifs defs fields o :
  o ∈ occurrences_in ifs defs fields ↔
  ∃ child, child ∈ fields ∧ o ∈ occurrences ifs defs child.
Proof.
  induction fields as [|c rest IH]; simpl.
  - split; [by intros ?%not_elem_of_nil|]. by intros (child & ?%not_elem_of_nil & _).
  - rewrite elem_of_app, IH. setoid_rewrite elem_of_cons. naive_solver.
Qed.

(** Nesting only grows on the way down a tree. *)
Lemma occurrences_depth node :
  ∀ ifs defs o,
    o ∈ occurrences ifs defs node → ifs ≤ occ_ifs o ∧ defs ≤ occ_defs o.
Proof.
  induction node as [names|module names level|fields IH|fields IH|fields IH|fields IH]
    using ast_nested_ind; intros ifs defs o Hin.
  1, 2: simpl in Hin; apply list_elem_of_fmap in Hin as (a & -> & _); simpl; lia.
  1: change (o ∈ occurrences_in (S ifs) defs fields) in Hin.
  2, 3: change (o ∈ occurrences_in ifs (S defs) fields) in Hin.
  4: change (o ∈ occurrences_in ifs defs fields) in Hin.
  all: apply occurrences_in_elem in Hin as (child & Hchild & Hin);
    rewrite Forall_forall in IH; apply (IH _ Hchild) in Hin; lia.
Qed.

Lemma occurrences_in_depth ifs defs fields o :
  o ∈ occurrences_in ifs defs fields → ifs ≤ occ_ifs o ∧ defs ≤ occ_defs o.
Proof.
  intros (child & _ & Hin)%occurrences_in_elem. by apply occurrences_depth in Hin.
Qed.

Lemma occurrences_If ifs defs fields :
  occurrences ifs defs (If fields) = occurrences_in (S ifs) defs fields.
Proof. reflexivity. Qed.

Lemma occurrences_FunctionDef ifs defs fields :
  occurrences ifs defs (FunctionDef fields) = occurrences_in ifs (S defs) fields.
Proof. reflexivity. Qed.

Lemma occurrences_AsyncFunctionDef ifs defs fields :
  occurrences ifs defs (AsyncFunctionDef fields) = occurrences_in ifs (S defs) fields.
Proof. reflexivity. Qed.

Lemma occurrences_flat node :
  no_scopes node = true →
  ∀ ifs defs o, o ∈ occurrences ifs defs node → occ_ifs o = ifs ∧ occ_defs o = defs.
Proof.
  induction node as [names|module names level|fields IH|fields IH|fields IH|fields IH]
    using ast_nested_ind; intros Hflat ifs defs o Hin; try done.
  1, 2: simpl in Hin; by apply list_elem_of_fmap in Hin as (a & -> & _).
  change (o ∈ occurrences_in ifs defs fields) in Hin.
  apply occurrences_in_elem in Hin as (child & Hchild & Hin).
  simpl in Hflat. rewrite forallb_forall in Hflat.
  rewrite Forall_forall in IH. apply (IH _ Hchild); [|done].
  apply Hflat. by apply list_elem_of_In.
Qed.

Lemma occurrences_in_forget ifs defs fields :
  Forall (λ child, ∀ ifs defs,
            occurrences ifs defs (forget_asnames child) = occurrences ifs defs child)
         fields →
  occurrences_in ifs defs (map forget_asnames fields) = occurrences_in ifs defs fields.
Proof.
  induction 1 as [|child rest Hchild _ IH]; simpl; [done|]. by rewrite Hchild, IH.
Qed.

Lemma occurrences_forget node :
  ∀ ifs defs, occurrences ifs defs (forget_asnames node) = occurrences ifs defs node.
Proof.
  induction node as [names|module names level|fields IH|fields IH|fields IH|fields IH]
    using ast_nested_ind; intros ifs defs.
  1, 2: simpl; by rewrite map_map.
  1: change (occurrences_in (S ifs) defs (map forget_asnames fields)
             = occurrences_in (S ifs) defs fields).
  2, 3: change (occurrences_in ifs (S defs) (map forget_asnames fields)
                = occurrences_in ifs (S defs) fields).
  4: change (occurrences_in ifs defs (map forget_asnames fields)
             = occurrences_in ifs defs fields).
  all: by apply occurrences_in_forget.
Qed.

Lemma records_where_all p os :
  (∀ o, o ∈ os → p o = true) → records_where p os = map occ_record os.
Proof.
  intros Hall. unfold records_where. induction os as [|o os IH]; simpl; [done|].
  rewrite (Hall o) by apply list_elem_of_here. simpl. f_equal.
  apply IH. intros o' Ho'. apply Hall. by apply list_elem_of_further.
Qed.

Lemma records_where_none p os :
  (∀ o, o ∈ os → p o = false) → records_where p os = [].
Proof.
  intros Hnone. unfold records_where. induction os as [|o os IH]; simpl; [done|].
  rewrite (Hnone o) by apply list_elem_of_here.
  apply IH. intros o' Ho'. apply Hnone. by apply list_elem_of_further.
Qed.

(** X1: the [as] names of import statements play no part: two trees that
    agree once these names are dropped are visited with the same result,
    from any finder. *)
Theorem asnames_are_ignored (first second : ast) (self : ImportsFinder) :
  forget_asnames first = forget_asnames second →
  visit first self = visit second self.
Proof.
  intros Hsame. rewrite !visit_extend.
  rewrite <- (occurrences_forget first), <- (occurrences_forget second).
  by rewrite Hsame.
Qed.

Lemma asnames_are_ignored_witness :
  forget_asnames aliased_tree = forget_asnames (Node [Import [plain "numpy"]]) ∧
  visit aliased_tree (init None) = visit (Node [Import [plain "numpy"]]) (init None).
Proof.
  split; [reflexivity|].
  apply (asnames_are_ignored aliased_tree (Node [Import [plain "numpy"]]) (init None)).
  reflexivity.
Defined.

(** X2: every record in [imports] is in at least one of the three buckets,
    so the buckets together are never shorter than [imports]. *)
Theorem every_import_is_in_a_bucket (tree : ast) (package : option string) :
  ∃ finder,
    search tree (init package) = Ok finder ∧
    imports finder ⊆
      direct_imports finder ++ conditional_imports finder ++ functions_imports finder ∧
    length (imports finder) ≤
      length (direct_imports finder) + length (conditional_imports finder)
      + length (functions_imports finder).
Proof.
  eexists. split; [apply search_fresh|]. simpl. split.
  - intros r Hr. apply list_elem_of_fmap in Hr as (o & -> & Ho).
    rewrite !elem_of_app. unfold records_where.
    destruct (is_conditional o) eqn:Hc; [|destruct (is_in_function o) eqn:Hf].
    + right. left. apply list_elem_of_fmap. exists o. split; [done|].
      apply list_elem_of_In, filter_In. split; [by apply list_elem_of_In|done].
    + right. right. apply list_elem_of_fmap. exists o. split; [done|].
      apply list_elem_of_In, filter_In. split; [by apply list_elem_of_In|done].
    + left. apply list_elem_of_fmap. exists o. split; [done|].
      apply list_elem_of_In, filter_In. split; [by apply list_elem_of_In|].
      rewrite is_direct_not_nested. unfold is_nested. by rewrite Hc, Hf.
  - unfold records_where. rewrite !length_map.
    induction (occurrences 0 0 tree) as [|o os IH]; simpl; [done|].
    rewrite is_direct_not_nested. unfold is_nested.
    destruct (is_conditional o), (is_in_function o); simpl; lia.
Qed.

Lemma occurrences_in_records ifs defs fields :
  Forall (λ child, ∀ ifs defs,
            map occ_record (occurrences ifs defs child) = records_of child) fields →
  map occ_record (occurrences_in ifs defs fields) = records_in fields.
Proof.
  induction 1 as [|child rest Hchild _ IH]; simpl; [done|].
  by rewrite map_app, Hchild, IH.
Qed.

(** The records of the occurrences are the records of the tree, whatever
    the depths counted from. *)
Lemma occurrences_records node :
  ∀ ifs defs, map occ_record (occurrences ifs defs node) = records_of node.
Proof.
  induction node as [names|module names level|fields IH|fields IH|fields IH|fields IH]
    using ast_nested_ind; intros ifs defs.
  1, 2: simpl; by rewrite map_map.
  1: change (map occ_record (occurrences_in (S ifs) defs fields) = records_in fields).
  2, 3: change (map occ_record (occurrences_in ifs (S defs) fields) = records_in fields).
  4: change (map occ_record (occurrences_in ifs defs fields) = records_in fields).
  all: by apply occurrences_in_records.
Qed.

(** X3: the records of all import statements below an [if], at any depth
    and in document order, are appended to [imports] and to
    [conditional_imports], and none of them to [direct_imports]; those
    below a function or an async function are appended to [imports] and to
    [functions_imports], and none of them to [direct_imports]. *)
Theorem nested_imports_never_direct (fields : list ast) (self : ImportsFinder) :
  (∃ self',
     visit (If fields) self = Ok self' ∧
     imports self' = imports self ++ records_in fields ∧
     conditional_imports self' = conditional_imports self ++ records_in fields ∧
     direct_imports self' = direct_imports self) ∧
  (∃ self',
     visit (FunctionDef fields) self = Ok self' ∧
     imports self' = imports self ++ records_in fields ∧
     functions_imports self' = functions_imports self ++ records_in fields ∧
     direct_imports self' = direct_imports self) ∧
  (∃ self',
     visit (AsyncFunctionDef fields) self = Ok self' ∧
     imports self' = imports self ++ records_in fields ∧
     functions_imports self' = functions_imports self ++ records_in fields ∧
     direct_imports self' = direct_imports self).
Proof.
  assert (Hrec : ∀ ifs defs,
    map occ_record (occurrences_in ifs defs fields) = records_in fields).
  { intros ifs defs. apply occurrences_in_records, Forall_forall.
    intros child _. apply occurrences_records. }
  split; [|split]; eexists; (split; [apply visit_extend|]);
    cbn [extend imports conditional_imports functions_imports direct_imports].
  - rewrite occurrences_If, Hrec. split; [done|]. split.
    + f_equal. rewrite <- (Hrec (S (length (in_conditional self)))
                              (length (in_function self))).
      apply records_where_all. intros o Ho.
      apply occurrences_in_depth in Ho. unfold is_conditional.
      destruct (occ_ifs o); [lia|done].
    + rewrite records_where_none; [by rewrite app_nil_r|]. intros o Ho.
      apply occurrences_in_depth in Ho. unfold is_direct.
      destruct (occ_ifs o); [lia|done].
  - rewrite occurrences_FunctionDef, Hrec. split; [done|]. split.
    + f_equal. rewrite <- (Hrec (length (in_conditional self))
                              (S (length (in_function self)))).
      apply records_where_all. intros o Ho.
      apply occurrences_in_depth in Ho. unfold is_in_function.
      destruct (occ_defs o); [lia|done].
    + rewrite records_where_none; [by rewrite app_nil_r|]. intros o Ho.
      apply occurrences_in_depth in Ho. unfold is_direct.
      destruct (occ_defs o); [lia|by rewrite andb_false_r].
  - rewrite occurrences_AsyncFunctionDef, Hrec. split; [done|]. split.
    + f_equal. rewrite <- (Hrec (length (in_conditional self))
                              (S (length (in_function self)))).
      apply records_where_all. intros o Ho.
      apply occurrences_in_depth in Ho. unfold is_in_function.
      destruct (occ_defs o); [lia|done].
    + rewrite records_where_none; [by rewrite app_nil_r|]. intros o Ho.
      apply occurrences_in_depth in Ho. unfold is_direct.
      destruct (occ_defs o); [lia|by rewrite andb_false_r].
Qed.

(** X4: in a tree without [if] and without function definitions every
    import is direct: loops, [try] blocks, [with] blocks and class bodies
    do not make an import conditional. *)
Theorem flat_tree_imports_all_direct (tree : ast) (package : option string) :
  no_scopes tree = true →
  ∃ finder,
    search tree (init package) = Ok finder ∧
    direct_imports finder = imports finder ∧
    conditional_imports finder = [] ∧
    functions_imports finder = [].
Proof.
  intros Hflat. eexists. split; [apply search_fresh|]. simpl.
  split; [|split].
  - apply records_where_all. intros o Ho.
    destruct (occurrences_flat _ Hflat _ _ _ Ho) as [Hi Hd].
    unfold is_direct. by rewrite Hi, Hd.
  - apply records_where_none. intros o Ho.
    destruct (occurrences_flat _ Hflat _ _ _ Ho) as [Hi Hd].
    unfold is_conditional. by rewrite Hi.
  - apply records_where_none. intros o Ho.
    destruct (occurrences_flat _ Hflat _ _ _ Ho) as [Hi Hd].
    unfold is_in_function. by rewrite Hd.
Qed.

Lemma flat_tree_imports_all_direct_witness :
  no_scopes loop_tree = true ∧
  ∃ finder,
    search loop_tree (init None) = Ok finder ∧
    direct_imports finder = imports finder ∧
    conditional_imports finder = [] ∧
    functions_imports finder = [].
Proof.
  split; [reflexivity|].
  apply (flat_tree_imports_all_direct loop_tree None). reflexivity.
Defined.

(** * Further properties of find_imports *)

(** X5: for a file that is not a [.pyd] and whose text parses,
    [find_imports] raises nothing and returns the records of the imports
    outside every [if] and every function, in document order; the
    [package] argument has no influence on the result. *)
Theorem find_imports_returns_top_level (E : Env) (path source : string) (tree : ast) :
  endswith path ".pyd" = false →
  fs E !! path = Some source →
  parse E source = Some tree →
  ∀ package,
    find_imports E path package = Ok (records_where is_direct (occurrences 0 0 tree)).
Proof.
  intros Hpyd Hfile Hparse package. unfold find_imports, read_file, ast_parse.
  rewrite Hpyd, Hfile. simpl. rewrite Hparse. simpl.
  by rewrite search_fresh.
Qed.

Lemma find_imports_returns_top_level_witness :
  endswith "a.py" ".pyd" = false ∧
  fs cyclic_env !! "a.py" = Some "import main, sys, sys" ∧
  parse cyclic_env "import main, sys, sys"
    = Some (Node [Import [plain "main"; plain "sys"; plain "sys"]]) ∧
  ∀ package,
    find_imports cyclic_env "a.py" package
      = Ok [("main", None); ("sys", None); ("sys", None)].
Proof.
  assert (Hfile : fs cyclic_env !! "a.py" = Some "import main, sys, sys")
    by (vm_compute; reflexivity).
  assert (Hparse : parse cyclic_env "import main, sys, sys"
                   = Some (Node [Import [plain "main"; plain "sys"; plain "sys"]]))
    by (vm_compute; reflexivity).
  split; [reflexivity|]. split; [exact Hfile|]. split; [exact Hparse|].
  exact (find_imports_returns_top_level cyclic_env "a.py" _ _ eq_refl Hfile Hparse).
Defined.

(** X6: a path that ends in [.pyd] is never opened or parsed: whether or
    not such a file exists, [find_imports] returns no imports, and the loop
    marks the path as visited and leaves the mapping and the queue as they
    are. *)
Theorem compiled_extension_is_a_leaf (E : Env) (path : string) :
  endswith path ".pyd" = true →
  (∀ package, find_imports E path package = Ok []) ∧
  (∀ who st,
     path ∉ visited st →
     loop_body E (who, Some path) st =
       Ok (MkState ({[path]} ∪ visited st) (modules st) (queue st)
             (history st ++ [Classified path]))).
Proof.
  intros Hpyd.
  assert (Hfind : ∀ package, find_imports E path package = Ok []).
  { intros package. unfold find_imports. by rewrite Hpyd. }
  split; [done|]. intros [dependent dependent_package] st Hvis. simpl.
  destruct (String.eqb_spec path "built-in") as [->|_]; [done|].
  rewrite bool_decide_eq_false_2 by done. by rewrite Hfind.
Qed.

Lemma compiled_extension_is_a_leaf_witness :
  endswith "ext.pyd" ".pyd" = true ∧
  fs broken_env !! "ext.pyd" = None ∧
  ∀ package, find_imports broken_env "ext.pyd" package = Ok [].
Proof.
  split; [reflexivity|]. split; [vm_compute; reflexivity|].
  exact (proj1 (compiled_extension_is_a_leaf broken_env "ext.pyd" eq_refl)).
Defined.

(** X7: for a path that is not a [.pyd] and is not a file of the
    environment, [find_imports] raises the error of [open], which carries
    the path; the loop does not catch it, so a run that reaches the path
    unvisited ends with that exception. *)
Theorem missing_file_aborts_run (E : Env) (path : string) :
  endswith path ".pyd" = false →
  fs E !! path = None →
  (∀ package, find_imports E path package = Raise (OSError path)) ∧
  (∀ pyfile st who rest,
     reachable E pyfile st →
     queue st = (who, Some path) :: rest →
     path ≠ "built-in" → path ∉ visited st →
     ∃ n, ∀ fuel, n ≤ fuel →
       requirements_info E fuel pyfile = Some (Raise (OSError path))).
Proof.
  intros Hpyd Hfile.
  assert (Hfind : ∀ package, find_imports E path package = Raise (OSError path)).
  { intros package. unfold find_imports, read_file. by rewrite Hpyd, Hfile. }
  split; [done|].
  intros pyfile st [dependent dependent_package] rest Hrun Hqueue Hne Hvis.
  assert (Hloop : loop E 1 st = Some (Raise (OSError path))).
  { simpl. unfold dequeue. rewrite Hqueue. simpl.
    rewrite (proj2 (String.eqb_neq _ _) Hne).
    rewrite bool_decide_eq_false_2 by done. by rewrite Hfind. }
  destruct (loop_from_reachable _ _ _ _ _ Hrun Hloop) as [n Hn].
  exists n. intros fuel Hfuel. unfold requirements_info.
  by rewrite (loop_more_fuel _ _ _ _ _ Hn Hfuel).
Qed.

Lemma missing_file_aborts_run_witness :
  endswith "gone.py" ".pyd" = false ∧
  fs broken_env !! "gone.py" = None ∧
  ∃ n, ∀ fuel, n ≤ fuel →
    requirements_info broken_env fuel "gone.py" = Some (Raise (OSError "gone.py")).
Proof.
  assert (Hfile : fs broken_env !! "gone.py" = None) by (vm_compute; reflexivity).
  split; [reflexivity|]. split; [exact Hfile|].
  apply (proj2 (missing_file_aborts_run broken_env "gone.py" eq_refl Hfile)
           "gone.py" (initial "gone.py") ("__main__", None) []).
  - apply rtc_refl.
  - reflexivity.
  - discriminate.
  - apply not_elem_of_empty.
Defined.

(** * Further properties of the resolver *)

(** X8: for an absolute dotted source the module name and the package
    handed to [find_spec] lose nothing: joined by a dot they give the
    source back, and the module name itself has no dot. *)
Theorem dotted_source_recombines (dependent_package : option string)
    (source : string) (name : option string) :
  startswith source "." = false →
  str_in "." source = true →
  ∃ module package,
    resolution_target dependent_package (source, name) = Ok (module, Some package) ∧
    source = package +:+ "." +:+ module ∧
    str_in "." module = false.
Proof.
  intros Hrel Hdot. unfold resolution_target.
  destruct (String.eqb_spec source ".") as [->|_]; [done|].
  rewrite Hrel, Hdot.
  destruct (unpack_split_dotted _ Hdot) as (init & -> & Hjoin).
  destruct (last_dot_decomposition _ Hdot) as [Hsource Hmodule].
  eexists _, _. split; [reflexivity|]. simpl. rewrite Hjoin. done.
Qed.

Lemma dotted_source_recombines_witness :
  startswith "os.path" "." = false ∧
  str_in "." "os.path" = true ∧
  ∃ module package,
    resolution_target None ("os.path", None) = Ok (module, Some package) ∧
    "os.path" = package +:+ "." +:+ module ∧
    str_in "." module = false.
Proof.
  split; [reflexivity|]. split; [reflexivity|].
  exact (dotted_source_recombines None "os.path" None eq_refl eq_refl).
Defined.

Lemma process_imports_app E dependent dependent_package first rest st :
  process_imports E dependent dependent_package (first ++ rest) st =
  (st1 <~ process_imports E dependent dependent_package first st ;;
   process_imports E dependent dependent_package rest st1).
Proof.
  revert st. induction first as [|imp first IH]; intros st; simpl; [done|].
  destruct (process_import E dependent dependent_package st imp); simpl; [apply IH|done].
Qed.

(** X9: only ModuleNotFoundError is caught around [find_spec]: when it
    raises anything else for an import, the round for that import raises
    it, and so does the loop over a file's imports once the imports before
    it have been processed; the imports after it are not looked at. *)
Theorem other_find_spec_errors_propagate (E : Env) (dependent : string)
    (dependent_package : option string) (before after : list ImportSpec)
    (imp : ImportSpec) (st0 st : State) (target : string * option string) (e : exn) :
  process_imports E dependent dependent_package before st0 = Ok st →
  resolution_target dependent_package imp = Ok target →
  find_spec E target.1 target.2 = FindRaises e →
  process_import E dependent dependent_package st imp = Raise e ∧
  process_imports E dependent dependent_package (before ++ imp :: after) st0 = Raise e.
Proof.
  intros Hbefore Htarget Hfind.
  assert (Hone : process_import E dependent dependent_package st imp = Raise e).
  { unfold process_import. rewrite Htarget. simpl. by rewrite Hfind. }
  split; [done|]. rewrite process_imports_app, Hbefore. simpl. by rewrite Hone.
Qed.

Lemma other_find_spec_errors_propagate_witness :
  process_imports strict_env "__main__" None [] (initial "main.py")
    = Ok (initial "main.py") ∧
  resolution_target None (".", Some "x") = Ok (".x", None) ∧
  find_spec strict_env ".x" None = FindRaises (ImportError "no package specified") ∧
  process_imports strict_env "__main__" None [(".", Some "x")] (initial "main.py")
    = Raise (ImportError "no package specified").
Proof.
  split; [reflexivity|]. split; [reflexivity|]. split; [reflexivity|].
  exact (proj2 (other_find_spec_errors_propagate strict_env "__main__" None [] []
                  (".", Some "x") (initial "main.py") (initial "main.py") (".x", None)
                  (ImportError "no package specified") eq_refl eq_refl eq_refl)).
Defined.

(** ** The mapping as a function of the resolutions *)

Lemma first_seen_elem q l : q ∈ first_seen l ↔ q ∈ l.
Proof.
  induction l as [|x l IH]; simpl; [done|].
  rewrite !elem_of_cons, list_elem_of_filter, IH.
  destruct (decide (q = x)); naive_solver.
Qed.

Lemma first_seen_snoc l q :
  first_seen (l ++ [q]) = if decide (q ∈ l) then first_seen l else first_seen l ++ [q].
Proof.
  induction l as [|x l IH]; [done|].
  cbn [app first_seen]. rewrite IH.
  destruct (decide (q ∈ l)) as [Hin|Hnin].
  - rewrite decide_True by (by apply list_elem_of_further). done.
  - rewrite filter_app. destruct (decide (q = x)) as [->|Hne].
    + rewrite decide_True by apply list_elem_of_here.
      rewrite (filter_cons_False _ x) by (by intros H; apply H).
      by rewrite filter_nil, app_nil_r.
    + rewrite decide_False by (rewrite elem_of_cons; naive_solver).
      rewrite (filter_cons_True _ q) by done. by rewrite filter_nil.
Qed.

Lemma first_seen_NoDup l : NoDup (first_seen l).
Proof.
  induction l as [|x l IH]; simpl; [apply NoDup_nil_2|].
  apply NoDup_cons. split; [|by apply NoDup_filter].
  rewrite list_elem_of_filter. naive_solver.
Qed.

Lemma resolved_by_app k h1 h2 : resolved_by k (h1 ++ h2) = resolved_by k h1 ++ resolved_by k h2.
Proof. apply omap_app. Qed.

Lemma default_entry_of l : default [] (entry_of l) = l.
Proof. by destruct l. Qed.

Lemma graph_from_history E st st' :
  rtc (step E) st st' →
  (∀ k, modules st !! k = entry_of (first_seen (resolved_by k (history st)))) →
  ∀ k, modules st' !! k = entry_of (first_seen (resolved_by k (history st'))).
Proof.
  apply (run_invariant E
    (λ s, ∀ k, modules s !! k = entry_of (first_seen (resolved_by k (history s)))));
    simpl.
  - done.
  - intros s path Hs _ _ k. rewrite resolved_by_app. simpl. by rewrite app_nil_r.
  - intros s dependent qualname _ Hs k. rewrite resolved_by_app. simpl.
    destruct (decide (dependent = k)) as [->|Hne]; simpl.
    + rewrite add_dependency_lookup, Hs, default_entry_of, first_seen_snoc. simpl.
      destruct (decide (qualname ∈ resolved_by k (history s))) as [Hin|Hnin].
      * rewrite bool_decide_eq_true_2 by (by apply first_seen_elem).
        apply first_seen_elem in Hin.
        by destruct (first_seen (resolved_by k (history s))); [apply not_elem_of_nil in Hin|].
      * rewrite bool_decide_eq_false_2 by (by rewrite first_seen_elem).
        by destruct (first_seen (resolved_by k (history s))).
    + rewrite add_dependency_lookup_ne by done. by rewrite app_nil_r.
Qed.

Lemma first_seen_again l : first_seen (first_seen l) = first_seen l.
Proof.
  induction l as [|q l IH] using rev_ind; [done|].
  rewrite first_seen_snoc. destruct (decide (q ∈ l)) as [Hin|Hnin]; [done|].
  rewrite first_seen_snoc, IH. by rewrite decide_False by (by rewrite first_seen_elem).
Qed.

Lemma first_seen_app_first l rs : first_seen (first_seen l ++ rs) = first_seen (l ++ rs).
Proof.
  induction rs as [|q rs IH] using rev_ind.
  - by rewrite !app_nil_r, first_seen_again.
  - rewrite !(assoc_L (++)), !first_seen_snoc, IH.
    destruct (decide (q ∈ l ++ rs)) as [Hin|Hnin].
    + rewrite decide_True; [done|].
      revert Hin. rewrite !elem_of_app, first_seen_elem. done.
    + rewrite decide_False; [done|].
      revert Hnin. rewrite !elem_of_app, first_seen_elem. done.
Qed.

Lemma resolved_by_events k dependent rs :
  resolved_by k (Resolved dependent <$> rs) = if decide (dependent = k) then rs else [].
Proof.
  unfold resolved_by. induction rs as [|q rs IH]; csimpl.
  - by destruct (decide (dependent = k)).
  - rewrite IH. by destruct (decide (dependent = k)).
Qed.

(** The loop over a file's imports records, in order, the names
    [find_spec] answers for them. *)
Lemma process_imports_history E dependent dependent_package imports st st' :
  process_imports E dependent dependent_package imports st = Ok st' →
  history st' =
    history st ++ (Resolved dependent <$> resolutions E dependent_package imports).
Proof.
  revert st. induction imports as [|imp rest IH]; intros st; simpl.
  - intros [= <-]. by rewrite app_nil_r.
  - destruct (process_import E dependent dependent_package st imp) as [st1|] eqn:H1;
      [|done].
    simpl. intros Hrest. rewrite (IH _ Hrest). unfold resolutions. csimpl.
    apply process_import_resolved in H1
      as [(_ & spec & target & Htarget & Hfind & _ & ->)|(Hno & _ & ->)].
    + rewrite Htarget, Hfind. csimpl. by rewrite <- (assoc_L (++)).
    + destruct (resolution_target dependent_package imp) as [target|] eqn:Htarget;
        [|done].
      destruct (find_spec E target.1 target.2) as [spec| | |] eqn:Hfind; try done.
      destruct Hno. by exists target, spec.
Qed.

(** X10: the mapping is determined by what [find_spec] answers.  A round
    that classifies a file for a module records, after the path, the names
    answered for the file's direct imports, in their order; the module's
    list is then its old list followed by those names, each name kept only
    where it first occurs, and no other list changes.  At every point of a
    run the list of a module holds the names recorded for it, each once, in
    the order in which they were first answered, and a module for which
    nothing was answered has no entry. *)
Theorem graph_is_first_seen_resolved (E : Env) (pyfile : string) (st : State) :
  reachable E pyfile st →
  (∀ st' dependent dependent_package path rest imports,
     step E st st' →
     queue st = ((dependent, dependent_package), Some path) :: rest →
     path ≠ "built-in" → (path ∉ visited st) →
     find_imports E path dependent_package = Ok imports →
     history st' =
       history st ++ Classified path ::
         (Resolved dependent <$> resolutions E dependent_package imports) ∧
     modules st' !! dependent =
       entry_of (first_seen (default [] (modules st !! dependent)
                             ++ resolutions E dependent_package imports)) ∧
     ∀ k, k ≠ dependent → modules st' !! k = modules st !! k) ∧
  (∀ k, modules st !! k = entry_of (first_seen (resolved_by k (history st)))) ∧
  (∀ k l, modules st !! k = Some l →
     NoDup l ∧ ∀ q, q ∈ l ↔ Resolved k q ∈ history st).
Proof.
  intros Hrun.
  assert (Hgraph : ∀ s, reachable E pyfile s → ∀ k,
    modules s !! k = entry_of (first_seen (resolved_by k (history s)))).
  { intros s Hs. apply (graph_from_history _ _ _ Hs). intros k. simpl. apply lookup_empty. }
  split; [|split; [by apply Hgraph|]].
  - intros st' dependent dependent_package path rest imports Hstep Hq Hne Hvis Hfind.
    pose proof (step_classifies _ _ _ _ _ _ _ _ Hstep Hq Hne Hvis Hfind) as Hloop.
    apply process_imports_history in Hloop. simpl in Hloop.
    rewrite <- (assoc_L (++)) in Hloop. simpl in Hloop.
    assert (Hrun' : reachable E pyfile st') by (by eapply rtc_r).
    split; [done|]. split.
    + rewrite (Hgraph _ Hrun'), (Hgraph _ Hrun), default_entry_of, Hloop.
      rewrite resolved_by_app. cbn [resolved_by omap list_omap].
      change (omap _ (Resolved dependent <$> ?rs)) with (resolved_by dependent (Resolved dependent <$> rs)).
      rewrite resolved_by_events, decide_True by done.
      by rewrite first_seen_app_first.
    + intros k Hk. rewrite (Hgraph _ Hrun'), (Hgraph _ Hrun), Hloop.
      rewrite resolved_by_app. cbn [resolved_by omap list_omap].
      change (omap _ (Resolved dependent <$> ?rs)) with (resolved_by k (Resolved dependent <$> rs)).
      rewrite resolved_by_events, decide_False by done.
      by rewrite app_nil_r.
  - intros k l Hk. rewrite (Hgraph _ Hrun) in Hk.
    assert (l = first_seen (resolved_by k (history st))) as ->.
    { destruct (first_seen (resolved_by k (history st))); [done|]. by injection Hk. }
    split; [apply first_seen_NoDup|]. intros q. rewrite first_seen_elem.
    unfold resolved_by. rewrite list_elem_of_omap. split.
    + intros ([p|d q'] & Hin & Heq); [done|].
      destruct (decide (d = k)) as [->|]; [|done]. by injection Heq as ->.
    + intros Hin. exists (Resolved k q). split; [done|]. by rewrite decide_True.
Qed.

Lemma graph_is_first_seen_resolved_witness :
  reachable cyclic_env "main.py" cyclic_after_one ∧
  (∃ st', step cyclic_env cyclic_after_one st') ∧
  queue cyclic_after_one = [(("a", Some "a"), Some "a.py")] ∧
  find_imports cyclic_env "a.py" (Some "a")
    = Ok [("main", None); ("sys", None); ("sys", None)] ∧
  resolutions cyclic_env (Some "a") [("main", None); ("sys", None); ("sys", None)]
    = ["main"; "sys"; "sys"] ∧
  ∀ st', step cyclic_env cyclic_after_one st' →
    modules st' !! "a" =
      entry_of (first_seen
                  (default [] (modules cyclic_after_one !! "a")
                   ++ resolutions cyclic_env (Some "a")
                        [("main", None); ("sys", None); ("sys", None)])).
Proof.
  assert (Hrun : reachable cyclic_env "main.py" cyclic_after_one).
  { apply rtc_once. apply cyclic_after_one_step. }
  assert (Hq : queue cyclic_after_one = [(("a", Some "a"), Some "a.py")]).
  { vm_compute. reflexivity. }
  assert (Hfind : find_imports cyclic_env "a.py" (Some "a")
                  = Ok [("main", None); ("sys", None); ("sys", None)]).
  { vm_compute. reflexivity. }
  assert (Hvis : "a.py" ∉ visited cyclic_after_one).
  { vm_compute. set_solver. }
  split; [exact Hrun|]. split.
  { eexists. eexists _, _. split; [vm_compute; reflexivity|]. vm_compute. reflexivity. }
  split; [exact Hq|]. split; [exact Hfind|]. split; [vm_compute; reflexivity|].
  intros st' Hstep.
  refine (proj1 (proj2 (proj1 (graph_is_first_seen_resolved cyclic_env "main.py"
                                 cyclic_after_one Hrun)
                          st' "a" (Some "a") "a.py" [] _ Hstep Hq _ Hvis Hfind))).
  discriminate.
Defined.

(** ** What is on the queue and what is in the mapping *)

Lemma module_path_nonempty spec : module_path_of spec ≠ "".
Proof.
  unfold module_path_of. destruct (spec_origin spec) as [origin|]; [|done].
  by destruct (String.eqb_spec origin "").
Qed.

Lemma recorded_add q dependent qualname (m : gmap string (list string)) :
  recorded q m → recorded q (add_dependency dependent qualname m).
Proof.
  intros (k & l & Hk & Hq).
  destruct (add_dependency_extends dependent qualname _ _ _ Hk) as [l' Hl'].
  exists k, (l ++ l'). split; [done|]. apply elem_of_app. by left.
Qed.

Lemma recorded_new dependent qualname (m : gmap string (list string)) :
  recorded qualname (add_dependency dependent qualname m).
Proof.
  eexists dependent, _. split; [apply add_dependency_lookup|]. simpl.
  case_bool_decide; [done|]. apply elem_of_app. right. apply list_elem_of_here.
Qed.

Lemma find_imports_readable E path package imports :
  find_imports E path package = Ok imports → readable E path.
Proof.
  unfold find_imports, readable, read_file, ast_parse.
  destruct (endswith path ".pyd"); [by left|].
  destruct (fs E !! path) as [source|]; [|done]. simpl.
  destruct (parse E source) as [tree|] eqn:Hparse; [|done].
  intros _. right. by exists source, tree.
Qed.

Section Rounds.

Context (E : Env).

(** A resolved import, with the entry it puts on the queue spelled out. *)
Lemma process_import_shape dependent dependent_package st imp st' :
  process_import E dependent dependent_package st imp = Ok st' →
  st' = st ∨
  ∃ spec context,
    (context = dependent ∨ context = spec_name spec) ∧
    st' = MkState (visited st)
            (add_dependency dependent (spec_name spec) (modules st))
            (queue st ++ [((spec_name spec, Some context), Some (module_path_of spec))])
            (history st ++ [Resolved dependent (spec_name spec)]).
Proof.
  unfold process_import.
  destruct (resolution_target dependent_package imp) as [target|]; [|done]. simpl.
  destruct (find_spec E target.1 target.2) as [spec| | |]; try done.
  - intros [= <-]. right. destruct (startswith imp.1 "."); eauto.
  - intros [= <-]. by left.
  - intros [= <-]. by left.
Qed.

(** A property [P] of the states between rounds holds throughout a run when
    a property [R] of the states inside the round for one dependent is
    established at the start of the round, kept by every resolved import,
    and gives [P] back at the end. *)
Lemma round_invariant (P : State → Prop) (R : string → State → Prop) :
  (∀ st entry rest,
     P st → queue st = entry :: rest →
     P (MkState (visited st) (modules st) rest (history st))) →
  (∀ st dependent dependent_package path rest imports,
     P st → queue st = ((dependent, dependent_package), Some path) :: rest →
     path ≠ "built-in" → path ∉ visited st →
     find_imports E path dependent_package = Ok imports →
     R dependent (MkState ({[path]} ∪ visited st) (modules st) rest
                    (history st ++ [Classified path]))) →
  (∀ dependent st spec context,
     R dependent st → context = dependent ∨ context = spec_name spec →
     R dependent
       (MkState (visited st)
          (add_dependency dependent (spec_name spec) (modules st))
          (queue st ++ [((spec_name spec, Some context), Some (module_path_of spec))])
          (history st ++ [Resolved dependent (spec_name spec)]))) →
  (∀ dependent st, R dependent st → P st) →
  ∀ st st', rtc (step E) st st' → P st → P st'.
Proof.
  intros Hskip Hstart Hedge Hend.
  assert (Hinner : ∀ dependent dependent_package imports st st',
    process_imports E dependent dependent_package imports st = Ok st' →
    R dependent st → R dependent st').
  { intros dependent dependent_package imports.
    induction imports as [|imp rest IH]; intros st st'; simpl.
    - by intros [= <-].
    - destruct (process_import E dependent dependent_package st imp) as [st1|] eqn:H1;
        [|done].
      simpl. intros Hrest HR. apply (IH _ _ Hrest).
      apply process_import_shape in H1 as [->|(spec & context & Hctx & ->)]; auto. }
  induction 1 as [st|st st1 st' (entry & st0 & Hdeq & Hbody) _ IH]; [done|].
  intros HP. apply IH.
  apply dequeue_cases in Hdeq as (rest & Hq & ->).
  apply loop_body_cases in Hbody
    as [->|(dependent & dependent_package & path & imports & -> & Hne & Hvis & Hfind & Hrun)].
  - by eapply Hskip.
  - simpl in *. apply (Hend dependent). apply (Hinner _ _ _ _ _ Hrun).
    by eapply Hstart.
Qed.

Lemma queue_and_keys st st' pyfile :
  rtc (step E) st st' →
  ((∀ entry, entry ∈ queue st → entry = seed pyfile ∨ put_by_loop (modules st) entry) ∧
   (∀ k, k ∈ dom (modules st) → k = "__main__" ∨ recorded k (modules st))) →
  (∀ entry, entry ∈ queue st' → entry = seed pyfile ∨ put_by_loop (modules st') entry) ∧
  (∀ k, k ∈ dom (modules st') → k = "__main__" ∨ recorded k (modules st')).
Proof.
  apply (round_invariant
    (λ s, (∀ entry, entry ∈ queue s → entry = seed pyfile ∨ put_by_loop (modules s) entry) ∧
          (∀ k, k ∈ dom (modules s) → k = "__main__" ∨ recorded k (modules s)))
    (λ dependent s,
       ((∀ entry, entry ∈ queue s → entry = seed pyfile ∨ put_by_loop (modules s) entry) ∧
        (∀ k, k ∈ dom (modules s) → k = "__main__" ∨ recorded k (modules s))) ∧
       (dependent = "__main__" ∨ recorded dependent (modules s)))); simpl.
  - intros s entry rest [Hqueue Hkeys] Hq. split; [|done].
    intros e He. apply Hqueue. rewrite Hq. by apply list_elem_of_further.
  - intros s dependent dependent_package path rest imports [Hqueue Hkeys] Hq _ _ _.
    split; [split; [|done]|].
    + intros e He. apply Hqueue. rewrite Hq. by apply list_elem_of_further.
    + destruct (Hqueue ((dependent, dependent_package), Some path)) as [Hseed|Hput].
      * rewrite Hq. apply list_elem_of_here.
      * unfold seed in Hseed. left. congruence.
      * destruct Hput as (q & context & p & Heq & _ & Hrec). right. congruence.
  - intros dependent s spec context [[Hqueue Hkeys] Hdep] _.
    split; [split|].
    + intros e [He| ->%list_elem_of_singleton]%elem_of_app.
      * destruct (Hqueue e He) as [?|(q & c & p & ? & ? & Hrec)]; [by left|].
        right. exists q, c, p. split; [done|]. split; [done|]. by apply recorded_add.
      * right. eexists _, _, _. split; [done|].
        split; [apply module_path_nonempty|apply recorded_new].
    + intros k [->|Hk]%add_dependency_dom.
      * destruct Hdep as [?|Hrec]; [by left|]. right. by apply recorded_add.
      * destruct (Hkeys k Hk) as [?|Hrec]; [by left|]. right. by apply recorded_add.
    + destruct Hdep as [?|Hrec]; [by left|]. right. by apply recorded_add.
  - by intros dependent s [HP _].
Qed.

Lemma visited_readable st st' :
  rtc (step E) st st' →
  (∀ p, p ∈ visited st → readable E p) → ∀ p, p ∈ visited st' → readable E p.
Proof.
  apply (round_invariant (λ s, ∀ p, p ∈ visited s → readable E p)
                         (λ _ s, ∀ p, p ∈ visited s → readable E p)); simpl; try done.
  intros s dependent dependent_package path rest imports Hs _ _ _ Hfind p.
  rewrite elem_of_union, elem_of_singleton. intros [->|Hp]; [|by apply Hs].
  by eapply find_imports_readable.
Qed.

End Rounds.

(** X11: every entry on the queue is either the one the run started from or
    one the loop put there: it then has a package and a path that is not
    empty, so the test for a missing path never fires for it, and its
    module is already listed as a dependency in the mapping. *)
Theorem queued_entries_are_recorded (E : Env) (pyfile : string) (st : State) :
  reachable E pyfile st →
  ∀ entry, entry ∈ queue st → entry = seed pyfile ∨ put_by_loop (modules st) entry.
Proof.
  intros Hrun. refine (proj1 (queue_and_keys E _ _ pyfile Hrun _)). simpl. split.
  - intros entry ->%list_elem_of_singleton. by left.
  - intros k. rewrite dom_empty_L. set_solver.
Qed.

Lemma queued_entries_are_recorded_witness :
  reachable cyclic_env "main.py" cyclic_after_one ∧
  (("a", Some "a"), Some "a.py") ∈ queue cyclic_after_one ∧
  ((("a", Some "a"), Some "a.py") = seed "main.py" ∨
   put_by_loop (modules cyclic_after_one) (("a", Some "a"), Some "a.py")).
Proof.
  assert (Hrun : reachable cyclic_env "main.py" cyclic_after_one).
  { apply rtc_once. apply cyclic_after_one_step. }
  assert (Hin : (("a", Some "a"), Some "a.py") ∈ queue cyclic_after_one).
  { vm_compute. apply list_elem_of_here. }
  split; [exact Hrun|]. split; [exact Hin|].
  exact (queued_entries_are_recorded cyclic_env "main.py" cyclic_after_one Hrun _ Hin).
Defined.

(** X12: the mapping has no orphan keys: every module with an entry is the
    entry point [__main__] or is itself listed as a dependency of some
    module. *)
Theorem keys_are_main_or_dependencies (E : Env) (pyfile : string) (st : State) :
  reachable E pyfile st →
  ∀ k, k ∈ dom (modules st) → k = "__main__" ∨ recorded k (modules st).
Proof.
  intros Hrun. refine (proj2 (queue_and_keys E _ _ pyfile Hrun _)). simpl. split.
  - intros entry ->%list_elem_of_singleton. by left.
  - intros k. rewrite dom_empty_L. set_solver.
Qed.

Lemma keys_are_main_or_dependencies_witness :
  reachable cyclic_env "main.py" cyclic_final ∧
  "a" ∈ dom (modules cyclic_final) ∧
  ("a" = "__main__" ∨ recorded "a" (modules cyclic_final)).
Proof.
  pose proof cyclic_final_reachable as Hrun.
  assert (Ha : "a" ∈ dom (modules cyclic_final)).
  { apply elem_of_dom. exists ["main"; "sys"]. vm_compute. reflexivity. }
  split; [exact Hrun|]. split; [exact Ha|].
  exact (keys_are_main_or_dependencies cyclic_env "main.py" cyclic_final Hrun "a" Ha).
Defined.

(** X13: as long as a run has not raised, every path it has visited is a
    compiled extension or a file of the environment whose text parses. *)
Theorem visited_paths_are_readable (E : Env) (pyfile : string) (st : State) :
  reachable E pyfile st →
  ∀ p, p ∈ visited st → readable E p.
Proof.
  intros Hrun. apply (visited_readable E _ _ Hrun). simpl. set_solver.
Qed.

Lemma visited_paths_are_readable_witness :
  reachable cyclic_env "main.py" cyclic_final ∧
  "a.py" ∈ visited cyclic_final ∧
  readable cyclic_env "a.py".
Proof.
  pose proof cyclic_final_reachable as Hrun.
  assert (Ha : "a.py" ∈ visited cyclic_final) by (vm_compute; set_solver).
  split; [exact Hrun|]. split; [exact Ha|].
  exact (visited_paths_are_readable cyclic_env "main.py" cyclic_final Hrun "a.py" Ha).
Defined.

(** ** The order of the queue *)

Lemma process_imports_appends E dependent dependent_package imports st st' :
  process_imports E dependent dependent_package imports st = Ok st' →
  ∃ added,
    queue st' = queue st ++ added ∧ length added ≤ length imports ∧
    visited st' = visited st.
Proof.
  revert st. induction imports as [|imp rest IH]; intros st; simpl.
  - intros [= <-]. exists []. by rewrite app_nil_r.
  - destruct (process_import E dependent dependent_package st imp) as [st1|] eqn:H1;
      [|done].
    simpl. intros Hrest. destruct (IH _ Hrest) as (added & Hq & Hlen & Hvis).
    apply process_import_cases in H1 as [->|(qualname & entry & ->)].
    + exists added. split; [done|]. split; [lia|done].
    + simpl in *. exists (entry :: added).
      split; [by rewrite Hq, <- (assoc_L (++))|]. split; [simpl; lia|done].
Qed.

(** X14: the queue is first in, first out: a round takes the entry at the
    head, keeps the others in their order, and puts what it adds behind
    them; it adds nothing when the entry is skipped, and otherwise marks
    the entry's path and adds at most one entry per direct import of that
    file. *)
Theorem queue_is_first_in_first_out (E : Env) (st st' : State) :
  step E st st' →
  ∃ entry rest added,
    queue st = entry :: rest ∧
    queue st' = rest ++ added ∧
    ((added = [] ∧ visited st' = visited st) ∨
     (∃ path, entry.2 = Some path ∧ (path ∉ visited st) ∧
              visited st' = {[path]} ∪ visited st ∧
              length added ≤ cost E path)).
Proof.
  intros (entry & st0 & Hdeq & Hbody).
  apply dequeue_cases in Hdeq as (rest & Hq & ->).
  apply loop_body_cases in Hbody
    as [->|(dependent & dependent_package & path & imports & -> & Hne & Hvis & Hfind & Hrun)].
  - exists entry, rest, []. split; [done|]. split; [by rewrite app_nil_r|]. by left.
  - apply process_imports_appends in Hrun as (added & Hadded & Hlen & Hsame).
    simpl in *. eexists _, rest, added. split; [done|]. split; [done|].
    right. exists path. split; [done|]. split; [done|]. split; [done|].
    by rewrite (find_imports_cost _ _ _ _ Hfind).
Qed.

Lemma queue_is_first_in_first_out_witness :
  step cyclic_env (initial "main.py") cyclic_after_one ∧
  ∃ entry rest added,
    queue (initial "main.py") = entry :: rest ∧
    queue cyclic_after_one = rest ++ added ∧
    ((added = [] ∧ visited cyclic_after_one = visited (initial "main.py")) ∨
     (∃ path, entry.2 = Some path ∧ (path ∉ visited (initial "main.py")) ∧
              visited cyclic_after_one = {[path]} ∪ visited (initial "main.py") ∧
              length added ≤ cost cyclic_env path)).
Proof.
  pose proof cyclic_after_one_step as Hstep.
  split; [exact Hstep|].
  exact (queue_is_first_in_first_out cyclic_env _ _ Hstep).
Defined.

(** ** Relative sources *)

Lemma append_empty s : s +:+ "" = s.
Proof.
  induction s as [|c s IH]; [done|].
  change (String c (s +:+ "") = String c s). by rewrite IH.
Qed.

(** X15: the tests the resolver makes on a source string recognise the
    from-imports they are meant for: the source written for a from-import
    starts with a dot iff its level is not zero, and it is a lone dot iff
    the level is one and no module is given. *)
Theorem relative_sources_have_levels (module : option string) (level : nat) :
  module_ok module →
  (startswith (from_source module level) "." = true ↔ 0 < level) ∧
  (from_source module level = "." ↔
     level = 1 ∧ (module = None ∨ module = Some "")).
Proof.
  intros Hok. unfold from_source.
  assert (Hdots : ∀ m, (if String.eqb m "" then dots level else dots level +:+ m)
                       = dots level +:+ m).
  { intros m. destruct (String.eqb_spec m "") as [->|_]; [|done].
    by rewrite append_empty. }
  assert (Hnone : dots level = dots level +:+ "") by (by rewrite append_empty).
  assert (Hgen : ∀ m, startswith m "." = false →
    (startswith (dots level +:+ m) "." = true ↔ 0 < level) ∧
    (dots level +:+ m = "." ↔ level = 1 ∧ m = "")).
  { intros m Hm. destruct level as [|[|n]].
    - change (dots 0 +:+ m) with m. rewrite Hm. split; [split; [done|lia]|].
      split; [by intros ->|]. intros [? _]. lia.
    - change (dots 1 +:+ m) with (String dot m).
      rewrite startswith_dot_cons. split; [split; [lia|done]|].
      split; [by intros [= ->]|]. by intros [_ ->].
    - change (dots (S (S n)) +:+ m) with (String dot (String dot (dots n +:+ m))).
      rewrite startswith_dot_cons. split; [split; [lia|done]|].
      split; [done|]. intros [? _]. lia. }
  destruct module as [m|].
  - rewrite Hdots. destruct (Hgen m (Hok m eq_refl)) as [H1 H2].
    split; [done|]. rewrite H2. naive_solver.
  - rewrite Hnone. destruct (Hgen "" eq_refl) as [H1 H2].
    split; [done|]. rewrite H2. naive_solver.
Qed.

Lemma relative_sources_have_levels_witness :
  module_ok (Some "pkg.mod") ∧
  (startswith (from_source (Some "pkg.mod") 2) "." = true ↔ 0 < 2).
Proof.
  assert (Hok : module_ok (Some "pkg.mod")).
  { intros m [= <-]. reflexivity. }
  split; [exact Hok|].
  exact (proj1 (relative_sources_have_levels (Some "pkg.mod") 2 Hok)).
Defined.
